(** * grunnverk/core: file locks, repository lock manager, transaction log

    A shallow embedding of [src/util/fileLock.ts], of the
    [TransactionLog] class and the rollback helpers of
    [src/transactionLog.ts], and of [src/util/gitMutex.ts].

    The TypeScript methods talk to the outside world through [fs],
    [Date.now], [setTimeout] and [process.on].  Each such call is an
    event of [sysE]; a method is a finite tree of events ([prog]) whose
    continuation receives what the call returned.  A handler gives the
    events a meaning: theorems quantified over every handler speak about
    every behaviour of the file system (other processes included), the
    handler [posix] is one plain file system, and [Concurrent] interleaves
    several processes over it, one event at a time.

    Logging calls are left out: the logger never affects control flow.
    What is evaluated to build a log line is kept where it can throw:
    [error.message] in the [catch] block of [rollbackAll()]. *)

From Stdlib Require Import ZArith QArith Qminmax Qround Qpower Lia Lqa.
From Stdlib Require Import Ascii DecimalString DecimalPos DecimalZ.
From stdpp Require Import base tactics option list strings pretty gmap.

Local Open Scope string_scope.
Local Open Scope list_scope.
Local Open Scope Z_scope.

(** ** JavaScript values and errors *)

(** An [Error] object, seen through the two properties the code reads.
    Errors of [fs] carry a [code]; errors made with [new Error(msg)] and
    the [SyntaxError]/[TypeError] of the runtime have none. *)
Record Error := mkError { code : option string; message : string }.

Inductive outcome (A : Type) : Type :=
| Ok (a : A)
| Throw (error : Error).
Arguments Ok {A} a.
Arguments Throw {A} error.

Definition new_Error (msg : string) : Error := mkError None msg.
Definition fs_Error (c msg : string) : Error := mkError (Some c) msg.

(** [error.code === c] *)
Definition code_is (error : Error) (c : string) : bool :=
  bool_decide (code error = Some c).

(** A JavaScript number as far as the lock code computes with it:
    an integer count of milliseconds, or [NaN]. *)
Inductive js_number := NaN | Num (z : Z).

(** [a - b] with [a] an integer *)
Definition js_sub (a : Z) (b : js_number) : js_number :=
  match b with NaN => NaN | Num z => Num (a - z) end.

(** [a > b]: every comparison with [NaN] is false *)
Definition js_gt (a : js_number) (b : Z) : bool :=
  match a with NaN => false | Num z => b <? z end.

(** What [JSON.parse] returned, seen through what [lock()] does with it:
    [null] (reading a property of it throws a [TypeError]) or any other
    value [v], of which only [Number(v.timestamp)] matters ([NaN] when
    the property is absent or not numeric). *)
Inductive json :=
| JSON_null
| JSON_value (timestamp : js_number).

Record LockData := mkLockData { pid : Z; timestamp : Z; hostname : string }.

(** [JSON.parse] ([None]: it throws a [SyntaxError]) and
    [JSON.stringify(lockData, null, 2)] are library functions. *)
Class JSON := {
  JSON_parse : string → option json;
  JSON_stringify : LockData → string
}.

(** [path.join] and [path.resolve] of Node. *)
Class Path := {
  path_join : string → string → string;
  path_resolve : string → string;
  path_resolve2 : string → string → string
}.

(** [process.pid] and [os.hostname()] of the running process. *)
Record Process := mkProcess { process_pid : Z; os_hostname : string }.

(** [fs.Stats], seen through [isDirectory()] and [isFile()]. *)
Record Stats := mkStats { isDirectory : bool; isFile : bool }.

(** ** Events and programs *)

(** The calls that leave the process.  [T] is the result type of the
    operation wrapped by [withGitLock]. *)
Inductive sysE {T : Type} : Type → Type :=
| Date_now : sysE Z
| fs_existsSync (path : string) : sysE bool
| fs_readFileSync (path : string) : sysE (outcome string)
| fs_unlinkSync (path : string) : sysE (outcome unit)
| fs_writeFileSync_wx (path data : string) : sysE (outcome unit)
| fs_statSync (path : string) : sysE (outcome Stats)
| setTimeout (ms : Q) : sysE unit
| process_on (signal : string) : sysE unit
| call_operation : sysE (outcome T).
Arguments sysE : clear implicits.

Inductive prog {T : Type} (R : Type) : Type :=
| Ret (r : R)
| Vis {X : Type} (e : sysE T X) (k : X → prog R).
Arguments prog : clear implicits.
Arguments Ret {T R} r.
Arguments Vis {T R X} e k.

Fixpoint bind {T A B} (m : prog T A) (f : A → prog T B) : prog T B :=
  match m with
  | Ret a => f a
  | Vis e k => Vis e (λ x, bind (k x) f)
  end.

Definition perform {T X} (e : sysE T X) : prog T X := Vis e Ret.

#[export] Instance prog_ret {T} : MRet (prog T) := λ _, Ret.
#[export] Instance prog_bind {T} : MBind (prog T) := λ _ _ f m, bind m f.

(** [try { body } catch (error) { handler }] *)
Definition try_catch {T A} (body : prog T (outcome A))
    (handler : Error → prog T (outcome A)) : prog T (outcome A) :=
  r ← body;
  match r with
  | Ok a => Ret (Ok a)
  | Throw error => handler error
  end.

(** Sequencing of statements that may throw. *)
Definition and_then {T A B} (m : prog T (outcome A))
    (f : A → prog T (outcome B)) : prog T (outcome B) :=
  r ← m;
  match r with
  | Ok a => f a
  | Throw error => Ret (Throw error)
  end.

Notation "'let?' x := m 'in' k" := (and_then m (λ x, k))
  (at level 10, x name, m at level 100, k at level 200).
Notation "'do?' m 'in' k" := (and_then m (λ _, k))
  (at level 10, m at level 100, k at level 200).

(** ** Traces and handlers *)

(** One entry per call: the call and what it returned. *)
Inductive event {T : Type} :=
| EvNow (t : Z)
| EvExists (path : string) (b : bool)
| EvRead (path : string) (r : outcome string)
| EvUnlink (path : string) (r : outcome unit)
| EvWrite (path data : string) (r : outcome unit)
| EvStat (path : string) (r : outcome Stats)
| EvSleep (ms : Q)
| EvProcessOn (signal : string)
| EvOperation (r : outcome T).
Arguments event : clear implicits.

Definition log {T X} (e : sysE T X) : X → event T :=
  match e in sysE _ X return X → event T with
  | Date_now => EvNow
  | fs_existsSync p => EvExists p
  | fs_readFileSync p => EvRead p
  | fs_unlinkSync p => EvUnlink p
  | fs_writeFileSync_wx p d => EvWrite p d
  | fs_statSync p => EvStat p
  | setTimeout ms => λ _, EvSleep ms
  | process_on s => λ _, EvProcessOn s
  | call_operation => EvOperation
  end.

(** A handler answers every call from a state [W] of the outside world. *)
Definition handler (T W : Type) := ∀ X, sysE T X → W → X * W.

Record run_result {T W R} := mkRun {
  result : R;
  final : W;
  trace : list (event T)
}.
Arguments run_result : clear implicits.
Arguments mkRun {T W R} result final trace.

Fixpoint run {T W R} (h : handler T W) (p : prog T R) (w : W)
    : run_result T W R :=
  match p with
  | Ret r => mkRun r w []
  | Vis e k =>
      let '(x, w') := h _ e w in
      let rest := run h (k x) w' in
      mkRun (result rest) (final rest) (log e x :: trace rest)
  end.

(** ** FileLock *)

Record FileLock := mkFileLock { lockPath : string; lockAcquired : bool }.

Definition maxRetries : nat := 100.
Definition retryDelay : Q := 100.
Definition maxRetryDelay : Q := 2000.
Definition lockTimeout : Z := 30000.

(** [new FileLock(lockPath)] *)
Definition new_FileLock (lockPath : string) : FileLock :=
  mkFileLock lockPath false.

Definition set_lockAcquired (b : bool) (self : FileLock) : FileLock :=
  mkFileLock (lockPath self) b.

(** [fs.unlinkSync(this.lockPath)] inside a [try] with an empty [catch] *)
Definition unlink_quietly {T} (self : FileLock) : prog T (outcome unit) :=
  try_catch (perform (fs_unlinkSync (lockPath self))) (λ _, Ret (Ok tt)).

(** The stale check, lines 41-64: the body of
    [if (fs.existsSync(this.lockPath)) { ... }]. *)
Definition check_stale {T} `{JSON} (self : FileLock) : prog T (outcome unit) :=
  let? lockContent := perform (fs_readFileSync (lockPath self)) in
  try_catch
    (let? existingLock := Ret (match JSON_parse lockContent with
                               | Some v => Ok v
                               | None => Throw (new_Error "SyntaxError")
                               end) in
     now ← perform Date_now;
     let? stamp := Ret (match existingLock with
                        | JSON_value ts => Ok ts
                        | JSON_null => Throw (new_Error "TypeError")
                        end) in
     let lockAge := js_sub now stamp in
     if js_gt lockAge lockTimeout
     then unlink_quietly self
     else Ret (Ok tt))
    (λ _, unlink_quietly self).

(** One pass through the [try] block of the loop, lines 32-74, up to and
    including the exclusive create. *)
Definition attempt {T} `{JSON} (proc : Process) (self : FileLock)
    : prog T (outcome unit) :=
  now ← perform Date_now;
  let lockData := mkLockData (process_pid proc) now (os_hostname proc) in
  present ← perform (fs_existsSync (lockPath self));
  do? (if present : bool then check_stale self else Ret (Ok tt)) in
  perform (fs_writeFileSync_wx (lockPath self) (JSON_stringify lockData)).

(** [Math.min(currentDelay * 1.5, this.maxRetryDelay)]; every delay the
    loop computes is a dyadic rational, so the product is exact in
    binary64 as well.  [Qred] only reduces the fraction. *)
Definition backoff (currentDelay : Q) : Q :=
  Qred (Qmin (currentDelay * (3 # 2)) maxRetryDelay).

(** The two errors [lock()] throws. *)
Definition timeout_Error (self : FileLock) : Error :=
  new_Error ("Failed to acquire file lock after " +:+ pretty maxRetries
               +:+ " attempts: " +:+ lockPath self).

Definition fatal_Error (self : FileLock) (error : Error) : Error :=
  new_Error ("Failed to acquire file lock " +:+ lockPath self +:+ ": "
               +:+ message error).

(** The [while (attempts < this.maxRetries)] loop.  [remaining] is
    [maxRetries - attempts]: the loop condition holds exactly when it is
    a successor, and [attempts++] is the only update of [attempts]. *)
Fixpoint lock_loop {T} `{JSON} (proc : Process) (self : FileLock)
    (remaining : nat) (attempts : nat) (currentDelay : Q)
    : prog T (FileLock * outcome unit) :=
  match remaining with
  | O =>
      Ret (self, Throw (timeout_Error self))
  | S remaining' =>
      r ← attempt proc self;
      match r with
      | Ok _ => Ret (set_lockAcquired true self, Ok tt)
      | Throw error =>
          if code_is error "EEXIST" then
            let attempts := S attempts in
            perform (setTimeout currentDelay);;
            let currentDelay := backoff currentDelay in
            lock_loop proc self remaining' attempts currentDelay
          else
            Ret (self, Throw (fatal_Error self error))
      end
  end.

(** [FileLock.lock()] *)
Definition lock {T} `{JSON} (proc : Process) (self : FileLock)
    : prog T (FileLock * outcome unit) :=
  lock_loop proc self maxRetries 0 retryDelay.

(** [FileLock.unlock()] *)
Definition unlock {T} (self : FileLock) : prog T (FileLock * outcome unit) :=
  if negb (lockAcquired self) then Ret (self, Ok tt)
  else
    r ← (present ← perform (fs_existsSync (lockPath self));
         if present : bool
         then perform (fs_unlinkSync (lockPath self))
         else Ret (Ok tt));
    match r with
    | Ok _ => Ret (set_lockAcquired false self, Ok tt)
    | Throw _ => Ret (set_lockAcquired false self, Ok tt)
    end.

(** [FileLock.isLocked()] *)
Definition isLocked (self : FileLock) : bool := lockAcquired self.

(** ** A plain file system *)

Inductive node := Directory | File (content : string).

Record world := mkWorld { files : gmap string node; clock : Z }.

Definition ENOENT (path : string) : Error :=
  fs_Error "ENOENT" ("ENOENT: no such file or directory '" +:+ path +:+ "'").
Definition EEXIST (path : string) : Error :=
  fs_Error "EEXIST" ("EEXIST: file already exists '" +:+ path +:+ "'").
Definition EISDIR (path : string) : Error :=
  fs_Error "EISDIR" ("EISDIR: illegal operation on a directory '" +:+ path +:+ "'").

(** The file system: every [fs] call sees and changes [files] only.
    [sleep] says what a timer does to the world and [operation] what the
    wrapped operation does.  The directory of every path is taken to
    exist, so a create fails with EEXIST only; [posix_tree] below looks
    at the directory too. *)
Definition file_system {T} (sleep : Q → world → world)
    (operation : world → outcome T * world) : handler T world :=
  λ X e w,
    match e in sysE _ X return X * world with
    | Date_now => (clock w, w)
    | fs_existsSync p => (bool_decide (is_Some (files w !! p)), w)
    | fs_readFileSync p =>
        match files w !! p with
        | Some (File c) => (Ok c, w)
        | Some Directory => (Throw (EISDIR p), w)
        | None => (Throw (ENOENT p), w)
        end
    | fs_unlinkSync p =>
        match files w !! p with
        | Some (File _) => (Ok tt, mkWorld (delete p (files w)) (clock w))
        | Some Directory => (Throw (EISDIR p), w)
        | None => (Throw (ENOENT p), w)
        end
    | fs_writeFileSync_wx p d =>
        match files w !! p with
        | Some _ => (Throw (EEXIST p), w)
        | None => (Ok tt, mkWorld (<[p := File d]> (files w)) (clock w))
        end
    | fs_statSync p =>
        match files w !! p with
        | Some Directory => (Ok (mkStats true false), w)
        | Some (File _) => (Ok (mkStats false true), w)
        | None => (Throw (ENOENT p), w)
        end
    | setTimeout ms => (tt, sleep ms w)
    | process_on _ => (tt, w)
    | call_operation => operation w
    end.

(** One process alone: while it sleeps, time passes and nothing else
    happens. *)
Definition posix {T} (operation : world → outcome T * world) : handler T world :=
  file_system (λ ms w, mkWorld (files w) (clock w + Qceiling ms)) operation.

Definition idle {T} (v : T) : world → outcome T * world := λ w, (Ok v, w).

(** ** Reading traces *)

Fixpoint count {A} (f : A → bool) (l : list A) : nat :=
  match l with
  | [] => 0
  | x :: l => ((if f x then 1 else 0) + count f l)%nat
  end.

(** Every pass through the loop body calls [fs.existsSync] once. *)
Definition is_attempt_start {T} (e : event T) : bool :=
  match e with EvExists _ _ => true | _ => false end.

Definition attempts_started {T} (t : list (event T)) : nat :=
  count is_attempt_start t.

Definition is_create {T} (e : event T) : bool :=
  match e with EvWrite _ _ _ => true | _ => false end.

Definition creates {T} (t : list (event T)) : nat := count is_create t.

(** The failures the outer [catch] sees as [error.code === 'EEXIST']. *)
Definition is_EEXIST_failure {T} (e : event T) : bool :=
  match e with
  | EvWrite _ _ (Throw error) => code_is error "EEXIST"
  | EvRead _ (Throw error) => code_is error "EEXIST"
  | _ => false
  end.

Definition EEXIST_failures {T} (t : list (event T)) : nat :=
  count is_EEXIST_failure t.

(** The durations handed to [setTimeout], in order. *)
Definition sleeps {T} (t : list (event T)) : list Q :=
  omap (λ e, match e with EvSleep ms => Some ms | _ => None end) t.

(** The delay in force after [n] back-offs. *)
Definition delay_after (n : nat) : Q := Nat.iter n backoff retryDelay.

(** ** Strings of JavaScript

    A character is a code point below 256.  Among these the white space
    of [trim()] and of [\s] is TAB, LF, VT, FF, CR, SP and NBSP, and the
    line terminators, which [.] does not match, are LF and CR. *)

Definition is_whitespace (c : ascii) : bool :=
  let n := nat_of_ascii c in
  bool_decide (n ∈ [9; 10; 11; 12; 13; 32; 160]%nat).

Definition is_line_terminator (c : ascii) : bool :=
  let n := nat_of_ascii c in
  bool_decide (n ∈ [10; 13]%nat).

Fixpoint trimStart (s : string) : string :=
  match s with
  | EmptyString => EmptyString
  | String c s' => if is_whitespace c then trimStart s' else s
  end.

Definition trimEnd (s : string) : string :=
  String.rev (trimStart (String.rev s)).

(** [s.trim()] *)
Definition trim (s : string) : string := trimEnd (trimStart s).

Fixpoint no_line_terminator (s : string) : bool :=
  match s with
  | EmptyString => true
  | String c s' => negb (is_line_terminator c) && no_line_terminator s'
  end.

(** [(.+)$]: the rest of the input, when it is not empty and holds no
    line terminator. *)
Definition match_dot_plus (s : string) : option string :=
  match s with
  | EmptyString => None
  | String _ _ => if no_line_terminator s then Some s else None
  end.

(** [\s*(.+)$] matched at the start of [s]; the result is the capture
    group.  [\s*] is greedy: it takes a white space character when the
    rest still matches, and gives it back otherwise. *)
Fixpoint match_spaces_then_rest (s : string) : option string :=
  match s with
  | EmptyString => None
  | String c s' =>
      if is_whitespace c then
        match match_spaces_then_rest s' with
        | Some group => Some group
        | None => match_dot_plus s
        end
      else match_dot_plus s
  end.

Fixpoint strip_prefix (p s : string) : option string :=
  match p, s with
  | EmptyString, _ => Some s
  | String a p', String b s' =>
      if bool_decide (a = b) then strip_prefix p' s' else None
  | String _ _, EmptyString => None
  end.

(** [s.match(/^gitdir:\s*(.+)$/)]: [match[1]] when the whole of [s]
    matches, [None] for [null]. *)
Definition match_gitdir (s : string) : option string :=
  match strip_prefix "gitdir:" s with
  | Some rest => match_spaces_then_rest rest
  | None => None
  end.

(** ** RepositoryFileLockManager *)

Record RepositoryFileLockManager := mkManager {
  locks : gmap string FileLock;
  cleanupRegistered : bool
}.

Definition new_RepositoryFileLockManager : RepositoryFileLockManager :=
  mkManager ∅ false.

Definition no_git_Error (repoPath : string) : Error :=
  new_Error ("No .git directory or file found in " +:+ repoPath).

Definition resolve_failed_Error (repoPath : string) (error : Error) : Error :=
  new_Error ("Failed to resolve git directory for " +:+ repoPath +:+ ": "
               +:+ message error).

Definition missing_gitdir_Error (gitDirPath : string) : Error :=
  new_Error ("Submodule git directory does not exist: " +:+ gitDirPath).

Definition invalid_format_Error (gitPath gitFileContent : string) : Error :=
  new_Error ("Invalid .git file format in " +:+ gitPath +:+ ": "
               +:+ gitFileContent).

(** The [try] block of [resolveGitDirectory], lines 168-193: [Ok (Some p)]
    is [return p], [Ok None] is leaving the block without a [return]. *)
Definition resolve_try {T} `{Path} (repoPath gitPath : string)
    : prog T (outcome (option string)) :=
  let? stat := perform (fs_statSync gitPath) in
  if isDirectory stat then Ret (Ok (Some gitPath))
  else if isFile stat then
    let? content := perform (fs_readFileSync gitPath) in
    let gitFileContent := trim content in
    match match_gitdir gitFileContent with
    | Some group =>
        if bool_decide (group ≠ "") then
          let gitDirPath := path_resolve2 repoPath group in
          present ← perform (fs_existsSync gitDirPath);
          if negb present
          then Ret (Throw (missing_gitdir_Error gitDirPath))
          else Ret (Ok (Some gitDirPath))
        else Ret (Throw (invalid_format_Error gitPath gitFileContent))
    | None => Ret (Throw (invalid_format_Error gitPath gitFileContent))
    end
  else Ret (Ok None).

(** [resolveGitDirectory(repoPath)] *)
Definition resolveGitDirectory {T} `{Path} (repoPath : string)
    : prog T (outcome string) :=
  let gitPath := path_join repoPath ".git" in
  r ← resolve_try repoPath gitPath;
  match r with
  | Ok (Some dir) => Ret (Ok dir)
  | Ok None => Ret (Throw (no_git_Error repoPath))
  | Throw error =>
      if code_is error "ENOENT"
      then Ret (Throw (no_git_Error repoPath))
      else Ret (Throw (resolve_failed_Error repoPath error))
  end.

(** [registerCleanupHandlers()]: four calls of [process.on]. *)
Definition registerCleanupHandlers {T} : prog T unit :=
  perform (process_on "exit");;
  perform (process_on "SIGINT");;
  perform (process_on "SIGTERM");;
  perform (process_on "uncaughtException").

(** [getRepositoryLock(repoPath)].  A [FileLock] object lives in the map
    [locks]; the reference handed out is its key together with its
    current value. *)
Definition getRepositoryLock {T} `{Path} (self : RepositoryFileLockManager)
    (repoPath : string)
    : prog T (RepositoryFileLockManager * outcome (string * FileLock)) :=
  let normalizedPath := path_resolve repoPath in
  match locks self !! normalizedPath with
  | Some l => Ret (self, Ok (normalizedPath, l))
  | None =>
      r ← resolveGitDirectory normalizedPath;
      match r with
      | Throw error => Ret (self, Throw error)
      | Ok gitDirPath =>
          let lockPath := path_join gitDirPath "kodrdriv.lock" in
          let l := new_FileLock lockPath in
          let locks' := <[normalizedPath := l]> (locks self) in
          if negb (cleanupRegistered self) then
            registerCleanupHandlers;;
            Ret (mkManager locks' true, Ok (normalizedPath, l))
          else Ret (mkManager locks' (cleanupRegistered self),
                    Ok (normalizedPath, l))
      end
  end.

(** The object behind a reference changed: update it in the map. *)
Definition store (key : string) (l : FileLock)
    (self : RepositoryFileLockManager) : RepositoryFileLockManager :=
  mkManager (<[key := l]> (locks self)) (cleanupRegistered self).

(** [withGitLock(repoPath, operation, operationName?)].  The operation is
    the event [call_operation]: the handler decides what it does and
    whether it returns or throws. *)
Definition withGitLock {T} `{Path} `{JSON} (proc : Process)
    (self : RepositoryFileLockManager) (repoPath : string)
    : prog T (RepositoryFileLockManager * outcome T) :=
  '(self, r) ← getRepositoryLock self repoPath;
  match r with
  | Throw error => Ret (self, Throw error)
  | Ok (key, l) =>
      startWait ← perform Date_now;
      '(l, r) ← lock proc l;
      let self := store key l self in
      match r with
      | Throw error => Ret (self, Throw error)
      | Ok _ =>
          now ← perform Date_now;
          let waitTime := now - startWait in
          r ← perform call_operation;
          '(l, u) ← unlock l;
          Ret (store key l self,
               match u with Ok _ => r | Throw error => Throw error end)
      end
  end.

(** ** TransactionLog *)

Module Transaction.

(** What a promise is rejected with.  The type says [Promise<void>] and
    nothing about the rejection: [Promise.reject()] rejects with
    [undefined].  Values other than [undefined] and [null] that are not
    Error objects (a string, a number) pass through [rollbackAll()] as an
    Error does: their [message] can be read. *)
Inductive reason :=
| an_Error (error : Error)
| js_undefined
| js_null.

(** An awaited [Promise<void>]. *)
Inductive settled :=
| Resolved
| Rejected (why : reason).

(** A rollback is an asynchronous action on the state [W] of whatever
    the workflow works on: awaited, it either resolves or rejects, and
    leaves a new state.  The array [operations] is private to the log;
    rollback actions do not reach it. *)
Record TransactionOperation {W : Type} := mkOperation {
  type : string;
  timestamp : Z;
  details : string;
  rollback : W → settled * W
}.
Arguments TransactionOperation : clear implicits.
Arguments mkOperation {W} type timestamp details rollback.

Record TransactionLog {W : Type} := mkLog {
  operations : list (TransactionOperation W)
}.
Arguments TransactionLog : clear implicits.
Arguments mkLog {W} operations.

Definition new_TransactionLog {W} : TransactionLog W := mkLog [].

(** [record(type, details, rollback)]; [now] is [new Date()]. *)
Definition record {W} (self : TransactionLog W) (type details : string)
    (rollback : W → settled * W) (now : Z) : TransactionLog W :=
  mkLog (operations self ++ [mkOperation type now details rollback]).

(** [error.message], line 56: reading a property of [undefined] or of
    [null] throws a TypeError (the wording is V8's). *)
Definition read_message (error : reason) : outcome string :=
  match error with
  | an_Error e => Ok (message e)
  | js_undefined =>
      Throw (new_Error "Cannot read properties of undefined (reading 'message')")
  | js_null =>
      Throw (new_Error "Cannot read properties of null (reading 'message')")
  end.

(** How the [for] loop of [rollbackAll()] ended. *)
Inductive loop_end := Completed | Escaped (error : Error).

Record pass {W : Type} := mkPass {
  ended : loop_end;
  errors : list reason;
  (** the operations whose [rollback()] was called, in call order *)
  attempted : list (TransactionOperation W);
  world_after : W
}.
Arguments pass : clear implicits.
Arguments mkPass {W} ended errors attempted world_after.

(** [for (let i = this.operations.length - 1; i >= 0; i--)], with
    [next] one above the index of the coming turn.  The [catch] block
    first logs [error.message] and then pushes [error]: what the read
    throws leaves the loop and the method.  An index outside the array
    cannot occur; there [op.type] throws inside [try] and again inside
    [catch]. *)
Fixpoint rollback_loop {W} (ops : list (TransactionOperation W)) (next : nat)
    (errors : list reason) (attempted : list (TransactionOperation W)) (w : W)
    : pass W :=
  match next with
  | O => mkPass Completed errors attempted w
  | S i =>
      match ops !! i with
      | Some op =>
          let '(r, w') := rollback op w in
          let attempted := attempted ++ [op] in
          match r with
          | Resolved => rollback_loop ops i errors attempted w'
          | Rejected error =>
              match read_message error with
              | Ok _ => rollback_loop ops i (errors ++ [error]) attempted w'
              | Throw type_error =>
                  mkPass (Escaped type_error) errors attempted w'
              end
          end
      | None => mkPass (Escaped (new_Error "TypeError")) errors attempted w
      end
  end.

Definition aggregate_Error (k : nat) : Error :=
  new_Error ("Rollback completed with " +:+ pretty k
               +:+ " error(s). See logs for details.").

Record rollback_result {W : Type} := mkResult {
  log_after : TransactionLog W;
  outcome_of : outcome unit;
  state_after : W;
  calls : list (TransactionOperation W)
}.
Arguments rollback_result : clear implicits.
Arguments mkResult {W} log_after outcome_of state_after calls.

(** [rollbackAll()] *)
Definition rollbackAll {W} (self : TransactionLog W) (w : W)
    : rollback_result W :=
  let p := rollback_loop (operations self) (length (operations self)) [] [] w in
  match ended p with
  | Escaped error => mkResult self (Throw error) (world_after p) (attempted p)
  | Completed =>
      if (0 <? length (errors p))%nat then
        mkResult self (Throw (aggregate_Error (length (errors p))))
          (world_after p) (attempted p)
      else mkResult (mkLog []) (Ok tt) (world_after p) (attempted p)
  end.

(** [clear()] *)
Definition clear {W} (self : TransactionLog W) : TransactionLog W := mkLog [].

(** [get count()] *)
Definition count {W} (self : TransactionLog W) : nat :=
  length (operations self).

(** [hasOperations()] *)
Definition hasOperations {W} (self : TransactionLog W) : bool :=
  (0 <? length (operations self))%nat.

(** The loop seen from the operations it has still to visit, the most
    recent first. *)
Fixpoint undo {W} (back : list (TransactionOperation W))
    (errors : list reason) (attempted : list (TransactionOperation W)) (w : W)
    : pass W :=
  match back with
  | [] => mkPass Completed errors attempted w
  | op :: rest =>
      let '(r, w') := rollback op w in
      let attempted := attempted ++ [op] in
      match r with
      | Resolved => undo rest errors attempted w'
      | Rejected error =>
          match read_message error with
          | Ok _ => undo rest (errors ++ [error]) attempted w'
          | Throw type_error => mkPass (Escaped type_error) errors attempted w'
          end
      end
  end.

(** In the words of the specification (4.4): the rollbacks of [ops], one
    after the other in list order, each started in the state the one
    before left, every one attempted; the result lists how each settled
    and gives the last state. *)
Fixpoint replay {W} (ops : list (TransactionOperation W)) (w : W)
    : list settled * W :=
  match ops with
  | [] => ([], w)
  | op :: rest =>
      let '(r, w') := rollback op w in
      let '(rs, w'') := replay rest w' in
      (r :: rs, w'')
  end.

Definition failures (rs : list settled) : list reason :=
  omap (λ r, match r with Resolved => None | Rejected error => Some error end) rs.

(** No rollback of [ops] ever rejects with [undefined] or [null]. *)
Definition never_nullish {W} (ops : list (TransactionOperation W)) : Prop :=
  Forall (λ op, ∀ w error, (rollback op w).1 = Rejected error →
                           ∃ e, error = an_Error e) ops.

(** What a promise of the rest of the code base settles to: these reject
    with Error objects. *)
Definition settle (r : outcome unit) : settled :=
  match r with
  | Ok _ => Resolved
  | Throw error => Rejected (an_Error error)
  end.

End Transaction.

(** ** Several processes on one lock file *)

Fixpoint tally {A} (f : A → nat) (l : list A) : nat :=
  match l with
  | [] => 0
  | x :: l => (f x + tally f l)%nat
  end.

Module Concurrent.

Inductive method := in_lock | in_unlock.

Definition call := prog unit (FileLock * outcome unit).

(** A process: its own [FileLock] instance [this], the method call it
    is in (with what is left of it), every call it has made to the
    outside, and how often it has invoked [lock()]. *)
Record proc_state := mkProc {
  who : Process;
  this : FileLock;
  running : option (method * call);
  history : list (method * event unit);
  lock_calls : nat
}.

Record system := mkSystem { shared : world; procs : list proc_state }.

(** What the scheduler may do next: let an idle process invoke a method,
    let a process make the next call of the method it is in, or let time
    pass. *)
Inductive action :=
| Call_lock (i : nat)
| Call_unlock (i : nat)
| Step (i : nat)
| Tick (ms : Z).

(** The file system the processes share; a timer of one process does not
    move the clock, time passes by [Tick].  Every call is one atomic step
    here, also [writeFileSync] with the flag [wx], which in Node opens
    the file and writes it afterwards.  An execution of the model is an
    execution of the processes in which nothing runs between the two
    halves of a create; the processes have further executions, which the
    model does not show.  The model serves to exhibit executions, not to
    exclude them. *)
Definition shared_fs : handler unit world := file_system (λ _ w, w) (idle tt).

(** A call to the outside is atomic, and the code up to the next call
    runs with it: when the method has returned, the instance carries its
    assignments to [lockAcquired]. *)
Definition settle (m : method) (p : proc_state) (k : call)
    (h : list (method * event unit)) (n : nat) : proc_state :=
  match k with
  | Ret (self, _) => mkProc (who p) self None h n
  | Vis _ _ => mkProc (who p) (this p) (Some (m, k)) h n
  end.

Definition act `{JSON} (a : action) (s : system) : system :=
  match a with
  | Tick ms =>
      mkSystem (mkWorld (files (shared s)) (clock (shared s) + Z.max 0 ms))
        (procs s)
  | Call_lock i =>
      match procs s !! i with
      | Some p =>
          match running p with
          | None =>
              mkSystem (shared s)
                (<[i := settle in_lock p (lock (who p) (this p)) (history p)
                          (S (lock_calls p))]> (procs s))
          | Some _ => s
          end
      | None => s
      end
  | Call_unlock i =>
      match procs s !! i with
      | Some p =>
          match running p with
          | None =>
              mkSystem (shared s)
                (<[i := settle in_unlock p (unlock (this p)) (history p)
                          (lock_calls p)]> (procs s))
          | Some _ => s
          end
      | None => s
      end
  | Step i =>
      match procs s !! i with
      | Some p =>
          match running p with
          | Some (m, Vis e k) =>
              let '(x, w') := shared_fs _ e (shared s) in
              mkSystem w'
                (<[i := settle m p (k x) (history p ++ [(m, log e x)])
                          (lock_calls p)]> (procs s))
          | _ => s
          end
      | None => s
      end
  end.

Definition exec `{JSON} (sched : list action) (s : system) : system :=
  foldl (λ s a, act a s) s sched.

(** [n] processes, each with a fresh [FileLock] on [path], none in a
    method, over the world [w]. *)
Definition init (path : string) (w : world) (n : nat) : system :=
  mkSystem w
    ((λ i, mkProc (mkProcess (Z.of_nat i) "host") (new_FileLock path) None [] 0)
       <$> seq 0 n).

Definition holds (p : proc_state) : bool := isLocked (this p).

(** How many processes believe they hold the lock. *)
Definition holders (s : system) : nat :=
  tally (λ p, if holds p then 1%nat else 0%nat) (procs s).

(** A delete issued from inside [lock()]: the lock file was judged stale
    or invalid. *)
Definition is_reclaim (c : method * event unit) : bool :=
  match c with
  | (in_lock, EvUnlink _ _) => true
  | _ => false
  end.

Definition reclaims (s : system) : nat :=
  tally (λ p, count is_reclaim (history p)) (procs s).

Definition is_lock_attempt (c : method * event unit) : bool :=
  match c with
  | (in_lock, e) => is_attempt_start e
  | _ => false
  end.

(** The attempts a process has started, over all its [lock()] calls. *)
Definition attempts (p : proc_state) : nat :=
  count is_lock_attempt (history p).

End Concurrent.

(** ** Instances to run the model on *)

(** A lock file that holds just the timestamp, in decimal; [null] and
    [{}] stand for themselves. *)
Definition stamp_parse (s : string) : option json :=
  if bool_decide (s = "null") then Some JSON_null
  else if bool_decide (s = "{}") then Some (JSON_value NaN)
  else match NilZero.int_of_string s with
       | Some d => Some (JSON_value (Num (Z.of_int d)))
       | None => None
       end.

Definition stamp_JSON : JSON := {|
  JSON_parse := stamp_parse;
  JSON_stringify d := NilZero.string_of_int (Z.to_int (timestamp d))
|}.

(** Paths joined with a slash, not normalised. *)
Definition slash_Path : Path := {|
  path_join a b := a +:+ "/" +:+ b;
  path_resolve p := p;
  path_resolve2 a b := a +:+ "/" +:+ b
|}.

(** A file system mounted read-only: every create fails with EROFS. *)
Definition EROFS (path : string) : Error :=
  fs_Error "EROFS" ("EROFS: read-only file system '" +:+ path +:+ "'").

Definition read_only {T} (operation : world → outcome T * world)
    : handler T world :=
  λ X e w,
    match e in sysE _ X return X * world → X * world with
    | fs_writeFileSync_wx p _ => λ _, (Throw (EROFS p), w)
    | _ => λ answer, answer
    end (posix operation X e w).

Definition sample_process : Process := mkProcess 4242 "build-host".
Definition sample_path : string := "/repo/.git/kodrdriv.lock".
Definition sample_lock : FileLock := new_FileLock sample_path.

(** A world whose only file is the lock file, holding [content]. *)
Definition locked_world (content : string) (now : Z) : world :=
  mkWorld {[ sample_path := File content ]} now.

Definition is_read {T} (e : event T) : bool :=
  match e with EvRead _ _ => true | _ => false end.

(** Three recorded operations over a world that notes which rollback
    ran; the second one rejects. *)
Definition noting (n : nat) (r : Transaction.settled)
    : list nat → Transaction.settled * list nat :=
  λ order, (r, order ++ [n]).

Definition sample_log : Transaction.TransactionLog (list nat) :=
  Transaction.record
    (Transaction.record
       (Transaction.record Transaction.new_TransactionLog
          "op1" "{}" (noting 1 Transaction.Resolved) 1000)
       "op2" "{}"
       (noting 2 (Transaction.Rejected
                    (Transaction.an_Error (new_Error "Rollback 2 failed")))) 1001)
    "op3" "{}" (noting 3 Transaction.Resolved) 1002.

(** The same three operations; the rollback of op2 rejects with
    [undefined], as [Promise.reject()] does. *)
Definition undefined_log : Transaction.TransactionLog (list nat) :=
  Transaction.record
    (Transaction.record
       (Transaction.record Transaction.new_TransactionLog
          "op1" "{}" (noting 1 Transaction.Resolved) 1000)
       "op2" "{}" (noting 2 (Transaction.Rejected Transaction.js_undefined)) 1001)
    "op3" "{}" (noting 3 Transaction.Resolved) 1002.

(** A submodule checkout: [.git] is a file pointing into the parent. *)
Definition submodule_world : world :=
  mkWorld
    {[ "/repo/sub/.git" :=
         File ("gitdir: ../.git/modules/sub" +:+ String (ascii_of_nat 10) "");
       "/repo/sub/../.git/modules/sub" := Directory ]}
    0.

Definition is_operation {T} (e : event T) : bool :=
  match e with EvOperation _ => true | _ => false end.

(** How often the wrapped operation was invoked. *)
Definition operation_calls {T} (t : list (event T)) : nat :=
  count is_operation t.

(** Two processes; the first takes the lock at time 0, 30001 ms pass,
    the second finds the lock file stale, deletes it and creates its own.
    Nobody has called [unlock()]. *)
Definition stale_takeover : list Concurrent.action :=
  [Concurrent.Call_lock 0; Concurrent.Step 0; Concurrent.Step 0;
   Concurrent.Step 0;
   Concurrent.Tick 30001;
   Concurrent.Call_lock 1; Concurrent.Step 1; Concurrent.Step 1;
   Concurrent.Step 1; Concurrent.Step 1; Concurrent.Step 1;
   Concurrent.Step 1]%nat.

(** Two processes; the second waits while the first holds the lock and
    takes it after the release. *)
Definition hand_over : list Concurrent.action :=
  [Concurrent.Call_lock 0; Concurrent.Step 0; Concurrent.Step 0;
   Concurrent.Step 0;
   Concurrent.Call_lock 1; Concurrent.Step 1; Concurrent.Step 1;
   Concurrent.Step 1; Concurrent.Step 1; Concurrent.Step 1;
   Concurrent.Step 1;
   Concurrent.Call_unlock 0; Concurrent.Step 0; Concurrent.Step 0;
   Concurrent.Tick 100;
   Concurrent.Step 1; Concurrent.Step 1; Concurrent.Step 1]%nat.

(** An ordinary checkout at [/repo], and an operation that throws. *)
Definition repo_world : world := mkWorld {[ "/repo/.git" := Directory ]} 0.

Definition failing_operation : world → outcome unit * world :=
  λ w, (Throw (new_Error "operation failed"), w).

(** Two processes; the holder releases between the [existsSync] and the
    [readFileSync] of the waiter. *)
Definition release_during_check : list Concurrent.action :=
  [Concurrent.Call_lock 0; Concurrent.Step 0; Concurrent.Step 0;
   Concurrent.Step 0;
   Concurrent.Call_lock 1; Concurrent.Step 1; Concurrent.Step 1;
   Concurrent.Call_unlock 0; Concurrent.Step 0; Concurrent.Step 0;
   Concurrent.Step 1]%nat.

(** Two processes find the lock file of a process that is gone.  Each
    reads it and judges it stale; then the first deletes it and creates
    its own, and the second deletes what is there now and creates its
    own. *)
Definition reclaim_race : list Concurrent.action :=
  [Concurrent.Call_lock 0; Concurrent.Step 0; Concurrent.Step 0;
   Concurrent.Step 0; Concurrent.Step 0;
   Concurrent.Call_lock 1; Concurrent.Step 1; Concurrent.Step 1;
   Concurrent.Step 1; Concurrent.Step 1;
   Concurrent.Step 0; Concurrent.Step 0;
   Concurrent.Step 1; Concurrent.Step 1]%nat.

(** What [lock()] writes into the lock file at the time of [w], and the
    world after a create that succeeded. *)
Definition lock_file_data `{JSON} (proc : Process) (w : world) : string :=
  JSON_stringify (mkLockData (process_pid proc) (clock w) (os_hostname proc)).

Definition created `{JSON} (proc : Process) (self : FileLock) (w : world)
    : world :=
  mkWorld (<[lockPath self := File (lock_file_data proc w)]> (files w)) (clock w).

(** ** Further observations on traces *)

(** The call [e] concerns the file [path], the clock or a timer: nothing
    else. *)
Definition touches_only {T} (path : string) (e : event T) : Prop :=
  match e with
  | EvExists q _ | EvRead q _ | EvUnlink q _ | EvWrite q _ _ => q = path
  | EvNow _ | EvSleep _ => True
  | EvStat _ _ | EvProcessOn _ | EvOperation _ => False
  end.

(** A call that may change a file. *)
Definition is_mutation {T} (e : event T) : bool :=
  match e with
  | EvUnlink _ _ | EvWrite _ _ _ => true
  | _ => false
  end.

Definition is_process_on {T} (e : event T) : bool :=
  match e with EvProcessOn _ => true | _ => false end.

Definition Qsum (l : list Q) : Q := foldr Qplus 0%Q l.

(** The time [lock()] spends in timers, in milliseconds. *)
Definition total_sleep {T} (t : list (event T)) : Q := Qsum (sleeps t).

(** The sleep of a [lock()] all of whose attempts fail. *)
Definition longest_sleep : Q := 6045625 # 32.


Definition is_successful_create {T} (e : event T) : bool :=
  match e with EvWrite _ _ (Ok _) => true | _ => false end.

(** The sleep of a [lock()] whose first [k] attempts fail. *)
Definition sleep_of (k : nat) : Q := Qsum (delay_after <$> seq 0 k).

(** ** RepositoryFileLockManager.destroy *)

(** The loop of [destroy()], lines 270-272.  A JavaScript [Map] hands out
    its values in insertion order, which [locks] does not record: [keys]
    is the order of the visit.  [unlock()] changes the lock object, which
    stays in the map until [clear()]. *)
Fixpoint destroy_loop {T} (keys : list string) (self : RepositoryFileLockManager)
    : prog T (RepositoryFileLockManager * outcome unit) :=
  match keys with
  | [] => Ret (self, Ok tt)
  | key :: keys' =>
      match locks self !! key with
      | None => destroy_loop keys' self
      | Some l =>
          '(l, r) ← unlock l;
          let self := store key l self in
          match r with
          | Ok _ => destroy_loop keys' self
          | Throw error => Ret (self, Throw error)
          end
      end
  end.

(** [destroy()] *)
Definition destroy {T} (keys : list string) (self : RepositoryFileLockManager)
    : prog T (RepositoryFileLockManager * outcome unit) :=
  '(self, r) ← destroy_loop keys self;
  match r with
  | Ok _ => Ret (mkManager ∅ (cleanupRegistered self), Ok tt)
  | Throw error => Ret (self, Throw error)
  end.

(** Some lock of the manager is held and has its lock file at [path]. *)
Definition holds_lock_at (self : RepositoryFileLockManager) (path : string)
    : Prop :=
  ∃ key l, locks self !! key = Some l ∧ lockAcquired l = true ∧ lockPath l = path.

(** The same, looking at the entries under [keys] only. *)
Definition held_on (self : RepositoryFileLockManager) (keys : list string)
    (path : string) : bool :=
  existsb (λ key, match locks self !! key with
                  | Some l => lockAcquired l && bool_decide (lockPath l = path)
                  | None => false
                  end) keys.

(** The call [e] asks for, or deletes, the lock file of a held lock. *)
Definition is_release_of {T} (self : RepositoryFileLockManager) (e : event T)
    : Prop :=
  match e with
  | EvExists p _ | EvUnlink p _ => holds_lock_at self p
  | _ => False
  end.

(** A manager that holds the lock of [/repo]. *)
Definition holding_manager : RepositoryFileLockManager :=
  mkManager {[ "/repo" := mkFileLock sample_path true ]} true.

(** ** Rollback helpers of the transaction log *)

(** [noopRollback()]: a promise that resolves at once. *)
Definition noopRollback {W} : W → Transaction.settled * W :=
  λ w, (Transaction.Resolved, w).

(** The storage of [@grunnverk/shared], as far as the log uses it:
    [writeFile(path, content, 'utf-8')] resolves or rejects with an Error
    and leaves a new state. *)
Class Storage (W : Type) := {
  storage_writeFile : string → string → W → outcome unit * W
}.

(** [createFileRestoreRollback(filePath, originalContent)]: the promise
    of the [async] function settles as [storage.writeFile] does. *)
Definition createFileRestoreRollback {W} `{Storage W}
    (filePath originalContent : string) : W → Transaction.settled * W :=
  λ w, let '(r, w') := storage_writeFile filePath originalContent w in
       (Transaction.settle r, w').

(** The operation [record("file", details, createFileRestoreRollback(p, c))]
    leaves in the log. *)
Definition file_restore {W} `{Storage W} (now : Z) (entry : string * string)
    : Transaction.TransactionOperation W :=
  Transaction.mkOperation "file" now entry.1
    (createFileRestoreRollback entry.1 entry.2).

(** The content recorded first for [path]. *)
Fixpoint earliest (entries : list (string * string)) (path : string)
    : option string :=
  match entries with
  | [] => None
  | (p, c) :: rest => if bool_decide (p = path) then Some c else earliest rest path
  end.

(** Files as a map from paths to contents; every write succeeds. *)
Definition plain_Storage : Storage (gmap string string) := {|
  storage_writeFile p c w := (Ok tt, <[p := c]> w)
|}.

(** ** gitMutex: the repository of a package *)

(** [path.dirname(p)] and [path.parse(p).root] *)
Class Dirs := {
  path_dirname : string → string;
  path_parse_root : string → string
}.

(** The plain file system with its directories: a file is created in a
    directory that exists.  The [open] of [writeFileSync] fails with
    ENOENT when the directory of the path is missing and with ENOTDIR
    when a file is in its place. *)
Definition ENOTDIR (path : string) : Error :=
  fs_Error "ENOTDIR" ("ENOTDIR: not a directory '" +:+ path +:+ "'").

Definition posix_tree {T} `{Dirs} (operation : world → outcome T * world)
    : handler T world :=
  λ X e w,
    match e in sysE _ X return X * world → X * world with
    | fs_writeFileSync_wx p _ => λ answer,
        match files w !! path_dirname p with
        | Some Directory => answer
        | Some (File _) => (Throw (ENOTDIR p), w)
        | None => (Throw (ENOENT p), w)
        end
    | _ => λ answer, answer
    end (posix operation X e w).

(** What [getGitRepositoryRoot] asks of the machine without changing it:
    [statSync(path)] and [git rev-parse --show-toplevel], run by
    [execSync] with [cwd]; [execSync] throws when git exits with an error
    or cannot be started, and returns what git printed otherwise.  These
    calls are answered by [host] and leave no entry in a trace: the traces
    of [GitMutex.withGitLock] and [GitMutex.runGitWithLock] hold what
    follows the lookup. *)
Record Host := mkHost {
  statSync : string → outcome Stats;
  git_show_toplevel : string → outcome string
}.

Module GitMutex.

(** Lines 86-94: [statSync(path.join(currentPath, '.git'))] inside [try]
    with an empty [catch]. *)
Definition has_git `{Path} (host : Host) (currentPath : string) : bool :=
  match statSync host (path_join currentPath ".git") with
  | Ok stats => isDirectory stats || isFile stats
  | Throw _ => false
  end.

(** [while (currentPath !== root) { ... }], lines 85-104.  [Some None] is
    leaving the loop (by its condition or by [break]), [Some (Some p)] is
    [return p], and [None] says that [fuel] turns did not finish the
    loop. *)
Fixpoint walk_up `{Path} `{Dirs} (host : Host) (fuel : nat)
    (root currentPath : string) : option (option string) :=
  match fuel with
  | O => None
  | S fuel' =>
      if bool_decide (currentPath = root) then Some None
      else if has_git host currentPath then Some (Some currentPath)
      else
        let parentPath := path_dirname currentPath in
        if bool_decide (parentPath = currentPath) then Some None
        else walk_up host fuel' root parentPath
  end.

(** Lines 61-71: where the search starts. *)
Definition start_directory `{Path} `{Dirs} (host : Host) (startPath : string)
    : string :=
  let currentPath := path_resolve startPath in
  match statSync host currentPath with
  | Ok stats => if isFile stats then path_dirname currentPath else currentPath
  | Throw _ => currentPath
  end.

(** [getGitRepositoryRoot(startPath)]; the inner [None] is [null]. *)
Definition getGitRepositoryRoot `{Path} `{Dirs} (host : Host) (fuel : nat)
    (startPath : string) : option (option string) :=
  let currentPath := start_directory host startPath in
  match git_show_toplevel host currentPath with
  | Ok out => Some (Some (trim out))
  | Throw _ => walk_up host fuel (path_parse_root currentPath) currentPath
  end.

(** [!repoPath] for [repoPath : string | null] *)
Definition falsy (repoPath : option string) : bool :=
  match repoPath with
  | Some s => bool_decide (s = "")
  | None => true
  end.

(** [areInSameRepository(path1, path2)] *)
Definition areInSameRepository `{Path} `{Dirs} (host : Host) (fuel : nat)
    (path1 path2 : string) : option bool :=
  repo1 ← getGitRepositoryRoot host fuel path1;
  repo2 ← getGitRepositoryRoot host fuel path2;
  Some (if falsy repo1 || falsy repo2 then false
        else bool_decide (repo1 = repo2)).

Record RepositoryMutexManager := mkMutex {
  lockManager : RepositoryFileLockManager
}.

Definition new_RepositoryMutexManager : RepositoryMutexManager :=
  mkMutex new_RepositoryFileLockManager.

(** [return await operation()] without a lock, line 40. *)
Definition unlocked {T} (self : RepositoryMutexManager)
    : prog T (RepositoryMutexManager * outcome T) :=
  r ← perform call_operation;
  Ret (self, r).

(** [this.lockManager.withGitLock(repoPath, operation, operationName)],
    line 43. *)
Definition locked {T} `{Path} `{JSON} (proc : Process)
    (self : RepositoryMutexManager) (repoPath : string)
    : prog T (RepositoryMutexManager * outcome T) :=
  '(m, r) ← withGitLock proc (lockManager self) repoPath;
  Ret (mkMutex m, r).

(** [RepositoryMutexManager.withGitLock(packagePath, operation)] *)
Definition withGitLock {T} `{Path} `{Dirs} `{JSON} (host : Host) (fuel : nat)
    (proc : Process) (self : RepositoryMutexManager) (packagePath : string)
    : option (prog T (RepositoryMutexManager * outcome T)) :=
  repoPath ← getGitRepositoryRoot host fuel packagePath;
  Some (match repoPath with
        | Some root => if falsy repoPath then unlocked self
                       else locked proc self root
        | None => unlocked self
        end).

(** [RepositoryMutexManager.destroy()] *)
Definition destroy {T} (keys : list string) (self : RepositoryMutexManager)
    : prog T (RepositoryMutexManager * outcome unit) :=
  '(m, r) ← destroy keys (lockManager self);
  Ret (mkMutex m, r).

(** [getGitMutexManager()]: the variable [globalGitMutexManager] after
    the call, and the manager returned. *)
Definition getGitMutexManager (global : option RepositoryMutexManager)
    : option RepositoryMutexManager * RepositoryMutexManager :=
  match global with
  | Some manager => (global, manager)
  | None =>
      let manager := new_RepositoryMutexManager in
      (Some manager, manager)
  end.

(** [destroyGitMutexManager()] *)
Definition destroyGitMutexManager {T} (keys : list string)
    (global : option RepositoryMutexManager)
    : prog T (option RepositoryMutexManager * outcome unit) :=
  match global with
  | Some manager =>
      '(manager, r) ← destroy keys manager;
      match r with
      | Ok _ => Ret (None, Ok tt)
      | Throw error => Ret (Some manager, Throw error)
      end
  | None => Ret (None, Ok tt)
  end.

(** [runGitWithLock(packagePath, operation, operationName?)] *)
Definition runGitWithLock {T} `{Path} `{Dirs} `{JSON} (host : Host) (fuel : nat)
    (proc : Process) (global : option RepositoryMutexManager)
    (packagePath : string)
    : option (prog T (option RepositoryMutexManager * outcome T)) :=
  let '(global, manager) := getGitMutexManager global in
  p ← withGitLock host fuel proc manager packagePath;
  Some ('(manager, r) ← p; Ret (Some manager, r)).

End GitMutex.

(** The ancestors of a path: [path.dirname] applied [k] times. *)
Definition ancestor `{Dirs} (k : nat) (path : string) : string :=
  Nat.iter k path_dirname path.

(** ** A machine to run gitMutex on *)

(** [dirname] of an absolute POSIX path without a trailing slash;
    [rev_path] is the path backwards. *)
Fixpoint before_last_slash (rev_path : string) : option string :=
  match rev_path with
  | EmptyString => None
  | String c rest =>
      if Ascii.eqb c "/" then Some rest else before_last_slash rest
  end.

Definition slash_dirname (p : string) : string :=
  match before_last_slash (String.rev p) with
  | None => "."
  | Some EmptyString => "/"
  | Some prefix => String.rev prefix
  end.

Definition slash_Dirs : Dirs := {|
  path_dirname := slash_dirname;
  path_parse_root := λ _, "/"
|}.

(** [statSync] on the files of [w]. *)
Definition stat_of (w : world) (p : string) : outcome Stats :=
  match files w !! p with
  | Some Directory => Ok (mkStats true false)
  | Some (File _) => Ok (mkStats false true)
  | None => Throw (ENOENT p)
  end.

(** A machine without git: [execSync] cannot start it. *)
Definition no_git : string → outcome string :=
  λ _, Throw (new_Error "Command failed: git rev-parse").

Definition host_without_git (w : world) : Host := mkHost (stat_of w) no_git.

(** A repository with one package. *)
Definition monorepo_world : world :=
  mkWorld {[ "/repo" := Directory;
             "/repo/.git" := Directory;
             "/repo/packages" := Directory;
             "/repo/packages/a" := Directory;
             "/repo/packages/a/package.json" := File "{}" ]} 0.

(** ** Tactics *)

(** Case analysis on everything the handler [h] may answer during one
    [attempt]: one goal per path through lines 32-67. *)
Ltac attempt_paths h :=
  unfold attempt, check_stale, unlink_quietly, try_catch, and_then, perform,
    mbind, prog_bind;
  simpl;
  repeat (match goal with
          | |- context [h ?X ?e ?w] => destruct (h X e w) as [? ?] eqn:?
          | |- context [match ?x with _ => _ end] => destruct x eqn:?
          end; simpl).

(** Walks down a program tree: one goal per path. *)
Ltac walk :=
  repeat (simpl;
          match goal with
          | |- ∀ _, _ => intro
          | |- _ ∧ _ => split
          | |- context [match ?x with _ => _ end] => destruct x
          end);
  simpl; try reflexivity; try exact I.

(** * Properties *)

(** ** Running programs *)

Lemma run_bind {T W A B} (h : handler T W) (m : prog T A) (f : A → prog T B) w :
  run h (m ≫= f) w =
    let r1 := run h m w in
    let r2 := run h (f (result r1)) (final r1) in
    mkRun (result r2) (final r2) (trace r1 ++ trace r2).
Proof.
  revert w. induction m as [a|X e k IH]; intros w.
  - simpl. destruct (run h (f a) w); reflexivity.
  - unfold mbind, prog_bind in *. simpl. destruct (h X e w) as [x w'].
    rewrite IH. simpl. reflexivity.
Qed.

Lemma run_bind' {T W A B} (h : handler T W) (m : prog T A) (f : A → prog T B) w :
  run h (bind m f) w =
    let r1 := run h m w in
    let r2 := run h (f (result r1)) (final r1) in
    mkRun (result r2) (final r2) (trace r1 ++ trace r2).
Proof. apply (run_bind h m f w). Qed.

Lemma run_perform {T W X} (h : handler T W) (e : sysE T X) w :
  run h (perform e) w = mkRun (h X e w).1 (h X e w).2 [log e (h X e w).1].
Proof. unfold perform. simpl. destruct (h X e w). reflexivity. Qed.

Lemma count_app {A} (f : A → bool) (l1 l2 : list A) :
  count f (l1 ++ l2) = (count f l1 + count f l2)%nat.
Proof. induction l1 as [|x l1 IH]; simpl; [reflexivity | rewrite IH; lia]. Qed.

Lemma sleeps_app {T} (t1 t2 : list (event T)) :
  sleeps (t1 ++ t2) = sleeps t1 ++ sleeps t2.
Proof. unfold sleeps. apply omap_app. Qed.

(** What one attempt leaves in the trace, whatever the file system does. *)
Lemma attempt_trace {T W} `{JSON} (h : handler T W) (w : W) proc self :
  let r := run h (attempt proc self) w in
  attempts_started (trace r) = 1%nat ∧
  sleeps (trace r) = [] ∧
  (creates (trace r) ≤ 1)%nat ∧
  EEXIST_failures (trace r) =
    match result r with
    | Throw error => if code_is error "EEXIST" then 1%nat else 0%nat
    | Ok _ => 0%nat
    end.
Proof.
  attempt_paths h; repeat split; try reflexivity;
    unfold creates, EEXIST_failures; simpl;
    repeat match goal with |- context [code_is ?e ?c] => destruct (code_is e c) end;
    try reflexivity; try discriminate; lia.
Qed.

(** A create is the last call of its attempt, and its outcome is the
    attempt's. *)
Lemma attempt_create_last {T W} `{JSON} (h : handler T W) (w : W) proc self i p d o :
  let r := run h (attempt proc self) w in
  trace r !! i = Some (EvWrite p d o) →
  S i = length (trace r) ∧ result r = o.
Proof.
  attempt_paths h; intros Hi;
    repeat (destruct i as [|i]; simpl in Hi; simplify_eq);
    split; reflexivity.
Qed.

(** One turn of the loop of [lock()], as a run. *)
Lemma lock_loop_S {T W} `{JSON} (h : handler T W) (w : W) proc self n a d :
  run h (lock_loop proc self (S n) a d) w =
    let r1 := run h (attempt proc self) w in
    match result r1 with
    | Ok _ => mkRun (set_lockAcquired true self, Ok tt) (final r1) (trace r1)
    | Throw error =>
        if code_is error "EEXIST" then
          let r2 := run h (lock_loop proc self n (S a) (backoff d))
                      (h _ (setTimeout d) (final r1)).2 in
          mkRun (result r2) (final r2) (trace r1 ++ EvSleep d :: trace r2)
        else mkRun (self, Throw (fatal_Error self error)) (final r1) (trace r1)
    end.
Proof.
  cbn [lock_loop]. rewrite run_bind. cbv zeta.
  destruct (result (run h (attempt proc self) w)) as [[]|error].
  - simpl. rewrite app_nil_r. reflexivity.
  - destruct (code_is error "EEXIST").
    + unfold perform, mbind, prog_bind. simpl.
      destruct (h unit (setTimeout d) _) as [[] w']. reflexivity.
    + simpl. rewrite app_nil_r. reflexivity.
Qed.

Lemma iter_backoff_shift (i : nat) (d : Q) :
  Nat.iter i backoff (backoff d) = Nat.iter (S i) backoff d.
Proof. induction i as [|i IH]; simpl; [reflexivity | rewrite IH; reflexivity]. Qed.

(** The loop, from any of its states: [n] turns left, delay [d]. *)
Lemma lock_loop_trace {T W} `{JSON} (h : handler T W) proc self n : ∀ a d w,
  let r := run h (lock_loop proc self n a d) w in
  let k := EEXIST_failures (trace r) in
  (k ≤ n)%nat ∧
  attempts_started (trace r) = (if decide (k = n) then k else S k) ∧
  (creates (trace r) ≤ attempts_started (trace r))%nat ∧
  sleeps (trace r) = (λ i, Nat.iter i backoff d) <$> seq 0 k ∧
  (k = n → result r = (self, Throw (timeout_Error self))).
Proof.
  induction n as [|n IH]; intros a d w.
  - simpl. repeat split; reflexivity || lia.
  - rewrite lock_loop_S. cbv zeta.
    pose proof (attempt_trace h w proc self) as (Hs & Hz & Hc & He).
    cbv zeta in Hs, Hz, Hc, He.
    destruct (result (run h (attempt proc self) w)) as [[]|error].
    + cbn [trace result]. rewrite He.
      destruct (decide (0%nat = S n)) as [|_]; [lia|].
      repeat split; [lia | assumption | lia | assumption | lia].
    + destruct (code_is error "EEXIST").
      * specialize (IH (S a) (backoff d) (h _ (setTimeout d)
                     (final (run h (attempt proc self) w))).2).
        cbv zeta in IH. destruct IH as (IH1 & IH2 & IH3 & IH4 & IH5).
        cbn [trace result].
        set (t2 := trace (run h (lock_loop proc self n (S a) (backoff d)) _)) in *.
        unfold EEXIST_failures, attempts_started, creates in *.
        rewrite !count_app, sleeps_app.
        change (sleeps (EvSleep d :: t2)) with (d :: sleeps t2).
        cbn [count].
        rewrite He, Hs, Hz. cbn [is_EEXIST_failure is_attempt_start is_create].
        rewrite IH4.
        set (k := count is_EEXIST_failure t2) in *.
        repeat split.
        -- lia.
        -- rewrite IH2. repeat case_decide; lia.
        -- lia.
        -- simpl. f_equal. rewrite <- fmap_S_seq, <- list_fmap_compose.
           apply list_fmap_ext. intros _ i _.
           apply iter_backoff_shift.
        -- intros Hk. apply IH5. lia.
      * cbn [trace result]. rewrite He.
        destruct (decide (0%nat = S n)) as [|_]; [lia|].
        repeat split; [lia | assumption | lia | assumption | lia].
Qed.

(** A create that fails with anything but EEXIST ends the loop. *)
Lemma lock_loop_fatal {T W} `{JSON} (h : handler T W) proc self n :
  ∀ a d w i p data error,
    let r := run h (lock_loop proc self n a d) w in
    trace r !! i = Some (EvWrite p data (Throw error)) →
    code_is error "EEXIST" = false →
    S i = length (trace r) ∧
    result r = (self, Throw (fatal_Error self error)).
Proof.
  induction n as [|n IH]; intros a d w i p data error r Hi Hcode; subst r.
  - simpl in Hi. rewrite lookup_nil in Hi. discriminate.
  - rewrite lock_loop_S in *. cbv zeta in *.
    pose proof (attempt_create_last h w proc self) as Hlast. cbv zeta in Hlast.
    destruct (result (run h (attempt proc self) w)) as [[]|error'] eqn:Hres.
    + cbn [trace result] in *. apply Hlast in Hi as [_ ?]. discriminate.
    + destruct (code_is error' "EEXIST") eqn:Hcode'.
      * cbn [trace result] in *.
        apply lookup_app_Some in Hi as [Hi|[Hle Hi]].
        { apply Hlast in Hi as [_ ?]. simplify_eq. congruence. }
        destruct (i - length (trace (run h (attempt proc self) w)))%nat
          as [|j] eqn:Hj; [discriminate|].
        cbn [lookup list_lookup] in Hi.
        apply IH in Hi as [Hlen ->]; [|assumption].
        split; [|reflexivity].
        rewrite length_app. cbn [length]. lia.
      * cbn [trace result] in *. apply Hlast in Hi as [? ?].
        simplify_eq. split; [assumption | reflexivity].
Qed.

(** ** The back-off schedule *)

Lemma backoff_spec (d : Q) : backoff d == Qmin (d * (3 # 2)) maxRetryDelay.
Proof. unfold backoff. apply Qred_correct. Qed.

Lemma Qmin_cap (x : Q) :
  Qmin (Qmin x maxRetryDelay * (3 # 2)) maxRetryDelay
  == Qmin (x * (3 # 2)) maxRetryDelay.
Proof.
  unfold maxRetryDelay.
  destruct (Q.min_spec x 2000) as [[H1 E1]|[H1 E1]]; rewrite E1.
  - reflexivity.
  - rewrite (Q.min_r (x * (3 # 2)) 2000) by lra.
    apply Q.min_r. lra.
Qed.

(** The delay in force after [n] back-offs is
    [min(100 * 1.5^n, 2000)]. *)
Lemma delay_after_closed (n : nat) :
  delay_after n == Qmin (retryDelay * (3 # 2) ^ Z.of_nat n) maxRetryDelay.
Proof.
  induction n as [|n IH].
  - vm_compute. reflexivity.
  - change (delay_after (S n)) with (backoff (delay_after n)).
    rewrite backoff_spec, IH, Qmin_cap.
    rewrite Nat2Z.inj_succ, <- Z.add_1_r, Qpower_plus by discriminate.
    apply Q.min_compat; [|reflexivity]. simpl. ring.
Qed.

(** ** One attempt on the plain file system *)

(** No lock file: the create succeeds at once. *)
Lemma attempt_absent {T} `{JSON} (operation : world → outcome T * world)
    (proc : Process) (self : FileLock) (w : world) :
  files w !! lockPath self = None →
  run (posix operation) (attempt proc self) w =
    mkRun (Ok tt) (created proc self w)
      [EvNow (clock w); EvExists (lockPath self) false;
       EvWrite (lockPath self) (lock_file_data proc w) (Ok tt)].
Proof.
  intros Hf. unfold attempt, and_then, perform, mbind, prog_bind. simpl.
  repeat (rewrite Hf; simpl). reflexivity.
Qed.

(** A lock file is there: what happens depends on what it holds. *)
Lemma attempt_present {T} `{JSON} (operation : world → outcome T * world)
    (proc : Process) (self : FileLock) (w : world) (c : string) :
  files w !! lockPath self = Some (File c) →
  let path := lockPath self in
  let data := lock_file_data proc w in
  run (posix operation) (attempt proc self) w =
    match JSON_parse c with
    | Some (JSON_value stamp) =>
        if js_gt (js_sub (clock w) stamp) lockTimeout then
          mkRun (Ok tt) (created proc self w)
            [EvNow (clock w); EvExists path true; EvRead path (Ok c);
             EvNow (clock w); EvUnlink path (Ok tt);
             EvWrite path data (Ok tt)]
        else
          mkRun (Throw (EEXIST path)) w
            [EvNow (clock w); EvExists path true; EvRead path (Ok c);
             EvNow (clock w); EvWrite path data (Throw (EEXIST path))]
    | Some JSON_null =>
        mkRun (Ok tt) (created proc self w)
          [EvNow (clock w); EvExists path true; EvRead path (Ok c);
           EvNow (clock w); EvUnlink path (Ok tt);
           EvWrite path data (Ok tt)]
    | None =>
        mkRun (Ok tt) (created proc self w)
          [EvNow (clock w); EvExists path true; EvRead path (Ok c);
           EvUnlink path (Ok tt); EvWrite path data (Ok tt)]
    end.
Proof.
  intros Hf path data. subst path data.
  unfold attempt, check_stale, unlink_quietly, try_catch, and_then, perform,
    mbind, prog_bind.
  simpl. repeat (rewrite Hf; simpl). unfold created, lock_file_data.
  destruct (JSON_parse c) as [[|stamp]|]; simpl;
    try destruct (js_gt (js_sub (clock w) stamp) lockTimeout); simpl;
    repeat (rewrite ?Hf, ?lookup_delete_eq, ?insert_delete_eq; simpl);
    reflexivity.
Qed.

(** A failure the loop retries is the last call of its attempt. *)
Lemma attempt_failure_last {T W} `{JSON} (h : handler T W) (w : W) proc self i ev :
  let r := run h (attempt proc self) w in
  trace r !! i = Some ev →
  is_EEXIST_failure ev = true →
  S i = length (trace r) ∧
  ∃ error, result r = Throw error ∧ code_is error "EEXIST" = true.
Proof.
  attempt_paths h; intros Hi Hev;
    repeat (destruct i as [|i]; simpl in Hi; simplify_eq);
    try discriminate; split; try reflexivity; eauto;
    match goal with
    | Hf : is_EEXIST_failure (EvWrite _ _ ?o) = true |- _ =>
        destruct o; simpl in Hf; [discriminate | eauto]
    end.
Qed.

(** In the loop a retried failure is followed by the timer at once. *)
Lemma lock_loop_sleeps_after_failure {T W} `{JSON} (h : handler T W) proc self n :
  ∀ a d w i ev,
    let r := run h (lock_loop proc self n a d) w in
    trace r !! i = Some ev →
    is_EEXIST_failure ev = true →
    ∃ ms, trace r !! S i = Some (EvSleep ms).
Proof.
  induction n as [|n IH]; intros a d w i ev r Hi Hev; subst r.
  - simpl in Hi. rewrite lookup_nil in Hi. discriminate.
  - rewrite lock_loop_S in *. cbv zeta in *.
    pose proof (attempt_failure_last h w proc self) as Hlast. cbv zeta in Hlast.
    destruct (result (run h (attempt proc self) w)) as [[]|error'] eqn:Hres.
    + cbn [trace] in *. destruct (Hlast _ _ Hi Hev) as (_ & ? & ? & _).
      discriminate.
    + destruct (code_is error' "EEXIST") eqn:Hcode'.
      * cbn [trace] in *.
        set (t1 := trace (run h (attempt proc self) w)) in *.
        apply lookup_app_Some in Hi as [Hi|[Hle Hi]].
        { destruct (Hlast _ _ Hi Hev) as (Hlen & _). exists d.
          rewrite lookup_app_r by lia.
          replace (S i - length t1)%nat with 0%nat by lia. reflexivity. }
        destruct (i - length t1)%nat as [|j] eqn:Hj.
        { simpl in Hi. simplify_eq. }
        cbn [lookup list_lookup] in Hi.
        destruct (IH _ _ _ _ _ Hi Hev) as [ms Hms]. exists ms.
        rewrite lookup_app_r by lia.
        replace (S i - length t1)%nat with (S (S j)) by lia. exact Hms.
      * cbn [trace] in *. destruct (Hlast _ _ Hi Hev) as (_ & ? & ? & ?).
        simplify_eq. congruence.
Qed.

(** ** FileLock.lock(): retries and back-off *)

(** C4. Whatever the file system answers, [lock()] starts at most
    [maxRetries] = 100 attempts, each with at most one create.  Every
    failure with code EEXIST is followed at once by a timer, and the
    timers run for [delay_after 0], [delay_after 1], ... in this order,
    where [delay_after n] is min(100 * 1.5^n, 2000).  When 100 attempts
    failed with EEXIST, [lock()] throws the error whose message ends with
    the lock path, and no further attempt was started. *)
Theorem lock_retries_with_capped_backoff {T W} `{JSON}
    (h : handler T W) (w : W) (proc : Process) (self : FileLock) :
  let r := run h (lock proc self) w in
  let k := EEXIST_failures (trace r) in
  maxRetries = 100%nat ∧
  (attempts_started (trace r) ≤ maxRetries)%nat ∧
  (creates (trace r) ≤ attempts_started (trace r))%nat ∧
  attempts_started (trace r) = (if decide (k = maxRetries) then k else S k) ∧
  (∀ i ev, trace r !! i = Some ev → is_EEXIST_failure ev = true →
           ∃ ms, trace r !! S i = Some (EvSleep ms)) ∧
  sleeps (trace r) = delay_after <$> seq 0 k ∧
  (∀ n, delay_after n == Qmin (100 * (3 # 2) ^ Z.of_nat n) 2000) ∧
  (k = maxRetries →
     result r = (self, Throw (timeout_Error self)) ∧
     message (timeout_Error self) =
       "Failed to acquire file lock after 100 attempts: " +:+ lockPath self).
Proof.
  unfold lock. cbv zeta.
  pose proof (lock_loop_trace h proc self maxRetries 0%nat retryDelay w) as Hl.
  cbv zeta in Hl. destruct Hl as (Hk & Hstart & Hcreate & Hsleep & Hout).
  split; [reflexivity|].
  split; [rewrite Hstart; case_decide; lia|].
  split; [assumption|].
  split; [assumption|].
  split; [intros i ev; apply lock_loop_sleeps_after_failure|].
  split; [assumption|].
  split; [apply delay_after_closed|].
  intros Hall. split; [apply Hout; assumption | reflexivity].
Qed.

(** The lock file holds [{}]: it parses, has no timestamp, and is never
    stale.  All 100 attempts fail and [lock()] times out. *)
Lemma lock_retries_with_capped_backoff_witness :
  result (run (posix (idle tt)) (lock (H:=stamp_JSON) sample_process sample_lock)
            (locked_world "{}" 0))
  = (sample_lock,
     Throw (new_Error
       "Failed to acquire file lock after 100 attempts: /repo/.git/kodrdriv.lock")).
Proof.
  pose proof (lock_retries_with_capped_backoff (H:=stamp_JSON) (posix (idle tt))
                (locked_world "{}" 0) sample_process sample_lock)
    as (_ & _ & _ & _ & _ & _ & _ & Hout).
  destruct Hout as [Hout _].
  - vm_compute. reflexivity.
  - exact Hout.
Defined.

(** C6. A create that fails with any code but EEXIST is the last call
    [lock()] makes: no timer and no further attempt follow, and [lock()]
    throws, with the message of the failure, leaving the instance as it
    was. *)
Theorem create_failure_is_fatal {T W} `{JSON}
    (h : handler T W) (w : W) (proc : Process) (self : FileLock)
    (i : nat) (path data : string) (error : Error) :
  let r := run h (lock proc self) w in
  trace r !! i = Some (EvWrite path data (Throw error)) →
  code error ≠ Some "EEXIST" →
  S i = length (trace r) ∧
  result r = (self, Throw (fatal_Error self error)) ∧
  message (fatal_Error self error) =
    "Failed to acquire file lock " +:+ lockPath self +:+ ": " +:+ message error.
Proof.
  intros r Hi Hcode.
  destruct (lock_loop_fatal h proc self maxRetries 0%nat retryDelay w
              i path data error Hi) as [Hlen Hres].
  - unfold code_is. apply bool_decide_eq_false. exact Hcode.
  - repeat split; assumption.
Qed.

Lemma create_failure_is_fatal_witness :
  let r := run (read_only (idle tt)) (lock (H:=stamp_JSON) sample_process sample_lock)
             (mkWorld ∅ 0) in
  trace r = [EvNow 0; EvExists sample_path false;
             EvWrite sample_path "0" (Throw (EROFS sample_path))] ∧
  result r = (sample_lock, Throw (fatal_Error sample_lock (EROFS sample_path))).
Proof.
  split.
  - vm_compute. reflexivity.
  - apply (create_failure_is_fatal (H:=stamp_JSON) (read_only (idle tt)) (mkWorld ∅ 0)
             sample_process sample_lock 2 sample_path "0" (EROFS sample_path)).
    + vm_compute. reflexivity.
    + discriminate.
Defined.

(** ** FileLock.lock(): stale and invalid lock files *)



(** C9. At any turn of the loop, a lock file that [JSON.parse] rejects is
    deleted before the create, whatever the clock says: its age is never
    looked at ([Date.now] is not called between the read and the delete).
    The create then succeeds and [lock()] returns holding the lock, as for
    a stale file. *)
Theorem invalid_lock_is_removed {T} `{JSON}
    (operation : world → outcome T * world) (proc : Process) (self : FileLock)
    (n a : nat) (d : Q) (w : world) (content : string) :
  files w !! lockPath self = Some (File content) →
  JSON_parse content = None →
  let path := lockPath self in
  let data := JSON_stringify
                (mkLockData (process_pid proc) (clock w) (os_hostname proc)) in
  let r := run (posix operation) (lock_loop proc self (S n) a d) w in
  trace r = [EvNow (clock w); EvExists path true; EvRead path (Ok content);
             EvUnlink path (Ok tt); EvWrite path data (Ok tt)] ∧
  result r = (set_lockAcquired true self, Ok tt) ∧
  files (final r) = <[path := File data]> (files w).
Proof.
  intros Hfile Hparse path data r. subst r.
  rewrite lock_loop_S. cbv zeta.
  rewrite (attempt_present operation proc self w content Hfile), Hparse.
  cbn [result trace final files]. repeat split; reflexivity.
Qed.

(** A lock file holding garbage, written "now": it is removed all the
    same. *)
Lemma invalid_lock_is_removed_witness :
  let r := run (posix (idle tt)) (lock (H:=stamp_JSON) sample_process sample_lock)
             (locked_world "not json" 7) in
  trace r = [EvNow 7; EvExists sample_path true;
             EvRead sample_path (Ok "not json");
             EvUnlink sample_path (Ok tt); EvWrite sample_path "7" (Ok tt)] ∧
  result r = (set_lockAcquired true sample_lock, Ok tt) ∧
  files (final r) = <[sample_path := File "7"]> (files (locked_world "not json" 7)).
Proof.
  apply (invalid_lock_is_removed (H:=stamp_JSON) (idle tt) sample_process
           sample_lock 99 0 retryDelay (locked_world "not json" 7) "not json").
  - vm_compute. reflexivity.
  - vm_compute. reflexivity.
Defined.

(** ** FileLock.unlock() *)

Lemma unlock_held {T W} (h : handler T W) (w : W) (self : FileLock) :
  lockAcquired self = true →
  run h (unlock self) w =
    let '(present, w1) := h _ (fs_existsSync (lockPath self)) w in
    if present : bool then
      let '(u, w2) := h _ (fs_unlinkSync (lockPath self)) w1 in
      mkRun (set_lockAcquired false self, Ok tt) w2
        [EvExists (lockPath self) true; EvUnlink (lockPath self) u]
    else
      mkRun (set_lockAcquired false self, Ok tt) w1
        [EvExists (lockPath self) false].
Proof.
  intros Hheld. unfold unlock, perform, mbind, prog_bind. rewrite Hheld. simpl.
  destruct (h bool (fs_existsSync (lockPath self)) w) as [[] w1]; simpl.
  - destruct (h (outcome unit) (fs_unlinkSync (lockPath self)) w1) as [[[]|e] w2];
      reflexivity.
  - reflexivity.
Qed.

Lemma unlock_free {T W} (h : handler T W) (w : W) (self : FileLock) :
  lockAcquired self = false → run h (unlock self) w = mkRun (self, Ok tt) w [].
Proof. intros Hfree. unfold unlock. rewrite Hfree. reflexivity. Qed.

(** C8. Whatever the file system answers, [unlock()] returns normally
    with the flag cleared ([lockAcquired] is false afterwards, the lock
    path is the same).  On an instance that does not hold the lock it
    does nothing at all.  On one that holds it, it asks whether the lock
    file exists and deletes it if so, and an error of the delete (the file
    is already gone) is swallowed; on the plain file system no lock file
    is left. *)
Theorem unlock_never_raises {T W} (h : handler T W) (w : W) (self : FileLock) :
  let r := run h (unlock self) w in
  result r = (set_lockAcquired false self, Ok tt) ∧
  (lockAcquired self = false →
     trace r = [] ∧ final r = w ∧ result r = (self, Ok tt)) ∧
  (lockAcquired self = true →
     (trace r = [EvExists (lockPath self) false] ∨
      ∃ u, trace r = [EvExists (lockPath self) true;
                      EvUnlink (lockPath self) u])) ∧
  (lockAcquired self = true →
     ∀ operation w0, files w0 !! lockPath self ≠ Some Directory →
       let r0 := run (posix (T:=T) operation) (unlock self) w0 in
       files (final r0) !! lockPath self = None ∧
       result r0 = (set_lockAcquired false self, Ok tt)) ∧
  lockAcquired (fst (result r)) = false ∧
  lockPath (fst (result r)) = lockPath self.
Proof.
  intros r. subst r. destruct (lockAcquired self) eqn:Hflag.
  - rewrite (unlock_held h w self Hflag).
    split; [|split; [discriminate|split; [|split]]].
    4:{ destruct (h bool _ w) as [[] w1]; [destruct (h (outcome unit) _ w1)|];
          split; reflexivity. }
    + destruct (h bool _ w) as [[] w1]; [destruct (h (outcome unit) _ w1)|];
        reflexivity.
    + intros _. destruct (h bool _ w) as [[] w1];
        [destruct (h (outcome unit) _ w1) as [u ?]; right; exists u|left];
        reflexivity.
    + intros _ operation w0 Hdir.
      rewrite (unlock_held _ w0 self Hflag). simpl.
      destruct (files w0 !! lockPath self) as [[|c]|] eqn:Hf; simpl.
      * congruence.
      * rewrite ?Hf. simpl. rewrite lookup_delete_eq. split; reflexivity.
      * split; [assumption | reflexivity].
  - unfold unlock. rewrite Hflag. simpl.
    destruct self as [p f]. simpl in Hflag. subst f.
    repeat split; try discriminate; reflexivity.
Qed.

Lemma unlock_never_raises_witness :
  run (posix (idle tt)) (unlock sample_lock) (locked_world "0" 5)
  = mkRun (sample_lock, Ok tt) (locked_world "0" 5) [].
Proof.
  pose proof (unlock_never_raises (posix (idle tt)) (locked_world "0" 5)
                sample_lock) as (_ & Hnoop & _).
  destruct Hnoop as (Ht & Hw & Hr); [reflexivity|].
  destruct (run (posix (idle tt)) (unlock sample_lock) (locked_world "0" 5))
    as [res fin tr].
  simpl in Ht, Hw, Hr. rewrite Ht, Hw, Hr. reflexivity.
Defined.

(** C10. [unlock()] on an instance whose flag is set deletes the lock
    file whatever it holds: the only calls are [existsSync] and
    [unlinkSync], the content is never read, so neither pid nor hostname
    is compared. *)
Theorem unlock_deletes_whatever_the_file_holds {T}
    (operation : world → outcome T * world) (w : world) (self : FileLock)
    (content : string) :
  lockAcquired self = true →
  files w !! lockPath self = Some (File content) →
  let r := run (posix operation) (unlock self) w in
  trace r = [EvExists (lockPath self) true; EvUnlink (lockPath self) (Ok tt)] ∧
  count is_read (trace r) = 0%nat ∧
  files (final r) = delete (lockPath self) (files w) ∧
  result r = (set_lockAcquired false self, Ok tt).
Proof.
  intros Hflag Hfile r. subst r.
  rewrite (unlock_held _ w self Hflag). simpl. rewrite Hfile. simpl.
  rewrite ?Hfile. simpl. repeat split; reflexivity.
Qed.

(** The instance believes it holds the lock; the file on disk was written
    by somebody else at time 31000, after a reclaim. *)
Lemma unlock_deletes_whatever_the_file_holds_witness :
  let r := run (posix (idle tt)) (unlock (set_lockAcquired true sample_lock))
             (locked_world "31000" 31005) in
  trace r = [EvExists sample_path true; EvUnlink sample_path (Ok tt)] ∧
  count is_read (trace r) = 0%nat ∧
  files (final r) = delete sample_path (files (locked_world "31000" 31005)) ∧
  result r = (sample_lock, Ok tt).
Proof.
  apply (unlock_deletes_whatever_the_file_holds (idle tt)
           (locked_world "31000" 31005) (set_lockAcquired true sample_lock)
           "31000").
  - reflexivity.
  - vm_compute. reflexivity.
Defined.

(** ** TransactionLog.rollbackAll() *)

Lemma failures_app (rs1 rs2 : list Transaction.settled) :
  Transaction.failures (rs1 ++ rs2)
  = Transaction.failures rs1 ++ Transaction.failures rs2.
Proof. apply omap_app. Qed.

(** The loop, started below index [i], visits the first [i] operations
    backwards. *)
Lemma rollback_loop_undo {W} (ops : list (Transaction.TransactionOperation W)) :
  ∀ (i : nat) errors attempted (w : W),
    (i ≤ length ops)%nat →
    Transaction.rollback_loop ops i errors attempted w
    = Transaction.undo (reverse (take i ops)) errors attempted w.
Proof.
  induction i as [|i IH]; intros errors attempted w Hi; [reflexivity|].
  destruct (lookup_lt_is_Some_2 ops i) as [op Hop]; [lia|].
  cbn [Transaction.rollback_loop]. rewrite Hop.
  rewrite (take_S_r _ _ _ Hop), reverse_snoc. cbn [Transaction.undo].
  destruct (Transaction.rollback op w) as [[|error] w']; cbv zeta.
  - apply IH. lia.
  - destruct (Transaction.read_message error); [apply IH; lia | reflexivity].
Qed.

Lemma rollbackAll_undo {W} (self : Transaction.TransactionLog W) (w : W) :
  Transaction.rollbackAll self w =
    let p := Transaction.undo (reverse (Transaction.operations self)) [] [] w in
    match Transaction.ended p with
    | Transaction.Escaped error =>
        Transaction.mkResult self (Throw error) (Transaction.world_after p)
          (Transaction.attempted p)
    | Transaction.Completed =>
        if (0 <? length (Transaction.errors p))%nat then
          Transaction.mkResult self
            (Throw (Transaction.aggregate_Error (length (Transaction.errors p))))
            (Transaction.world_after p) (Transaction.attempted p)
        else Transaction.mkResult (Transaction.mkLog []) (Ok tt)
               (Transaction.world_after p) (Transaction.attempted p)
    end.
Proof.
  unfold Transaction.rollbackAll.
  rewrite rollback_loop_undo by reflexivity. rewrite firstn_all. reflexivity.
Qed.

(** What has been collected so far rides along. *)
Lemma undo_accumulates {W} (back : list (Transaction.TransactionOperation W)) :
  ∀ errors attempted (w : W),
    Transaction.undo back errors attempted w =
      let p := Transaction.undo back [] [] w in
      Transaction.mkPass (Transaction.ended p)
        (errors ++ Transaction.errors p)
        (attempted ++ Transaction.attempted p)
        (Transaction.world_after p).
Proof.
  induction back as [|op back IH]; intros errors attempted w.
  - simpl. rewrite !app_nil_r. reflexivity.
  - cbn [Transaction.undo].
    destruct (Transaction.rollback op w) as [[|error] w']; cbv zeta.
    + rewrite (IH errors (attempted ++ [op])), (IH [] ([] ++ [op])).
      cbv zeta. cbn [Transaction.ended Transaction.errors
        Transaction.attempted Transaction.world_after app].
      rewrite <- app_assoc. reflexivity.
    + destruct (Transaction.read_message error).
      * rewrite (IH (errors ++ [error]) (attempted ++ [op])),
          (IH ([] ++ [error]) ([] ++ [op])).
        cbv zeta. cbn [Transaction.ended Transaction.errors
          Transaction.attempted Transaction.world_after app].
        rewrite <- !app_assoc. reflexivity.
      * cbn [Transaction.ended Transaction.errors Transaction.attempted
          Transaction.world_after app].
        rewrite app_nil_r. reflexivity.
Qed.

(** The rollbacks called are the most recent operations, in reverse
    order of recording. *)
Lemma undo_attempted_prefix {W} (back : list (Transaction.TransactionOperation W)) :
  ∀ (w : W),
    Transaction.attempted (Transaction.undo back [] [] w) `prefix_of` back.
Proof.
  induction back as [|op back IH]; intros w; [reflexivity|].
  cbn [Transaction.undo].
  destruct (Transaction.rollback op w) as [[|error] w']; cbv zeta.
  - rewrite undo_accumulates. cbv zeta. cbn [Transaction.attempted app].
    apply prefix_cons, IH.
  - destruct (Transaction.read_message error).
    + rewrite undo_accumulates. cbv zeta. cbn [Transaction.attempted app].
      apply prefix_cons, IH.
    + cbn [Transaction.attempted app]. apply prefix_cons, prefix_nil.
Qed.

(** As long as no rollback rejects with [undefined] or [null], the loop
    does what the specification says: every rollback is attempted. *)
Lemma undo_replay {W} (back : list (Transaction.TransactionOperation W)) :
  Transaction.never_nullish back →
  ∀ errors attempted (w : W),
    Transaction.undo back errors attempted w =
      Transaction.mkPass Transaction.Completed
        (errors ++ Transaction.failures (Transaction.replay back w).1)
        (attempted ++ back)
        (Transaction.replay back w).2.
Proof.
  induction 1 as [|op back Hop _ IH]; intros errors attempted w.
  - simpl. rewrite !app_nil_r. reflexivity.
  - cbn [Transaction.undo Transaction.replay]. specialize (Hop w).
    destruct (Transaction.rollback op w) as [[|error] w']; cbv zeta.
    + rewrite IH.
      destruct (Transaction.replay back w') as [rs w'']. cbn [fst snd].
      rewrite <- app_assoc. reflexivity.
    + destruct (Hop error eq_refl) as [e ->]. cbn [Transaction.read_message].
      rewrite IH.
      destruct (Transaction.replay back w') as [rs w'']. cbn [fst snd].
      change (Transaction.failures (Transaction.Rejected (Transaction.an_Error e) :: rs))
        with ([Transaction.an_Error e] ++ Transaction.failures rs).
      rewrite <- !app_assoc. reflexivity.
Qed.

Lemma replay_length {W} (ops : list (Transaction.TransactionOperation W)) :
  ∀ (w : W), length (Transaction.replay ops w).1 = length ops.
Proof.
  induction ops as [|op ops IH]; intros w; [reflexivity|].
  cbn [Transaction.replay]. destruct (Transaction.rollback op w) as [r1 w1].
  specialize (IH w1). destruct (Transaction.replay ops w1). simpl in *.
  rewrite IH. reflexivity.
Qed.

(** With rollbacks that reject with Error objects only, [rollbackAll()]
    calls the rollback of every recorded operation, most recent first,
    each one started in the state the one before left, whether or not
    earlier ones failed.  With [k] the number of rollbacks that failed: if
    [k] is 0 the call returns and the log is empty; otherwise it throws
    one error whose message gives [k], and the recorded operations are
    kept. *)
Lemma rollbackAll_with_Error_rejections {W}
    (self : Transaction.TransactionLog W) (w : W) :
  Transaction.never_nullish (Transaction.operations self) →
  let r := Transaction.rollbackAll self w in
  let back := reverse (Transaction.operations self) in
  let k := length (Transaction.failures (Transaction.replay back w).1) in
  Transaction.calls r = back ∧
  Transaction.state_after r = (Transaction.replay back w).2 ∧
  length (Transaction.replay back w).1 = length (Transaction.operations self) ∧
  (if decide (k = 0%nat)
   then Transaction.outcome_of r = Ok tt ∧
        Transaction.count (Transaction.log_after r) = 0%nat
   else Transaction.outcome_of r = Throw (Transaction.aggregate_Error k) ∧
        Transaction.log_after r = self) ∧
  message (Transaction.aggregate_Error k) =
    "Rollback completed with " +:+ pretty k +:+ " error(s). See logs for details.".
Proof.
  intros Hnever r back k. subst r. rewrite rollbackAll_undo. cbv zeta.
  fold back. rewrite undo_replay by (apply Forall_reverse, Hnever).
  cbn [Transaction.ended Transaction.errors Transaction.attempted
       Transaction.world_after app].
  fold k.
  destruct (Nat.ltb_spec 0 k) as [Hk|Hk]; cbn [Transaction.calls
    Transaction.state_after Transaction.outcome_of Transaction.log_after].
  - repeat split; try reflexivity.
    + rewrite replay_length. unfold back. apply length_reverse.
    + case_decide; [lia|]. destruct self. split; reflexivity.
  - repeat split; try reflexivity.
    + rewrite replay_length. unfold back. apply length_reverse.
    + case_decide; [|lia]. split; reflexivity.
Qed.

(** The test of the repository: op1, op2, op3 recorded, the rollback of
    op2 rejects with an Error.  All three run, in the order 3, 2, 1; the
    error counts one failure and the three operations stay recorded. *)
Example rollbackAll_one_of_three_fails :
  let r := Transaction.rollbackAll sample_log [] in
  Transaction.type <$> Transaction.calls r = ["op3"; "op2"; "op1"] ∧
  Transaction.state_after r = [3; 2; 1]%nat ∧
  Transaction.outcome_of r =
    Throw (new_Error "Rollback completed with 1 error(s). See logs for details.") ∧
  Transaction.count (Transaction.log_after r) = 3%nat.
Proof. vm_compute. repeat split; reflexivity. Qed.

(** C2.  The same test with a rollback of op2 that rejects with
    [undefined]: the [catch] block throws while it logs [error.message],
    so [rollbackAll()] is left with a TypeError after the rollbacks of op3
    and op2.  The rollback of op1 is never called and no aggregate error
    with the count of failures is raised; the three operations stay
    recorded. *)
Theorem rollbackAll_stops_at_a_rejection_with_undefined :
  let r := Transaction.rollbackAll undefined_log [] in
  Transaction.type <$> Transaction.calls r = ["op3"; "op2"] ∧
  Transaction.state_after r = [3; 2]%nat ∧
  Transaction.outcome_of r =
    Throw (new_Error "Cannot read properties of undefined (reading 'message')") ∧
  Transaction.outcome_of r ≠ Throw (Transaction.aggregate_Error 1) ∧
  Transaction.count (Transaction.log_after r) = 3%nat.
Proof.
  vm_compute. split; [reflexivity|]. split; [reflexivity|].
  split; [reflexivity|]. split; [discriminate | reflexivity].
Qed.

(** ** resolveGitDirectory *)

Lemma strip_prefix_Some (p s rest : string) :
  strip_prefix p s = Some rest ↔ s = p +:+ rest.
Proof.
  revert s. induction p as [|a p IH]; intros s; simpl.
  - split; [intros [= ->]; reflexivity | intros ->; reflexivity].
  - destruct s as [|b s]; [split; discriminate|].
    case_bool_decide as Hab.
    + subst b. rewrite IH. split; [intros ->; reflexivity | intros [= ->]; reflexivity].
    + split; [discriminate | intros [= ? _]; congruence].
Qed.

Lemma match_gitdir_needs_prefix (line : string) :
  (¬ ∃ rest, line = "gitdir:" +:+ rest) → match_gitdir line = None.
Proof.
  intros Hno. unfold match_gitdir.
  destruct (strip_prefix "gitdir:" line) as [rest|] eqn:Hp; [|reflexivity].
  exfalso. apply Hno. exists rest. apply strip_prefix_Some. exact Hp.
Qed.

Lemma match_gitdir_line (c : ascii) (rest : string) :
  is_whitespace c = false →
  no_line_terminator (String c rest) = true →
  match_gitdir ("gitdir: " +:+ String c rest) = Some (String c rest).
Proof.
  intros Hc Hnl. unfold match_gitdir.
  assert (strip_prefix "gitdir:" ("gitdir: " +:+ String c rest)
          = Some (String " " (String c rest))) as ->
    by (apply strip_prefix_Some; reflexivity).
  cbn [match_spaces_then_rest].
  change (is_whitespace " ") with true. cbv iota. rewrite Hc.
  unfold match_dot_plus. rewrite Hnl. reflexivity.
Qed.

Lemma match_dot_plus_nonempty (s group : string) :
  match_dot_plus s = Some group → group ≠ "".
Proof.
  destruct s; simpl; [discriminate|].
  destruct (_ && _); [intros [= <-]; discriminate | discriminate].
Qed.

Lemma match_spaces_then_rest_nonempty (s group : string) :
  match_spaces_then_rest s = Some group → group ≠ "".
Proof.
  induction s as [|c s IH]; cbn [match_spaces_then_rest]; [discriminate|].
  destruct (is_whitespace c).
  - destruct (match_spaces_then_rest s) as [g|].
    + intros [= <-]. apply IH. reflexivity.
    + apply match_dot_plus_nonempty.
  - apply match_dot_plus_nonempty.
Qed.

Lemma match_gitdir_nonempty (s group : string) :
  match_gitdir s = Some group → group ≠ "".
Proof.
  unfold match_gitdir. destruct (strip_prefix "gitdir:" s); [|discriminate].
  apply match_spaces_then_rest_nonempty.
Qed.

(** [trim()] removes white space at both ends and nothing else. *)
Lemma string_rev_app_rev_app (s1 s2 s3 : string) :
  String.rev_app (String.rev_app s1 s2) s3 = String.rev_app s2 (s1 +:+ s3).
Proof.
  revert s2 s3. induction s1 as [|a s1 IH]; intros s2 s3; [reflexivity|].
  simpl. rewrite IH. reflexivity.
Qed.

Lemma string_app_empty_r (s : string) : s +:+ "" = s.
Proof.
  induction s as [|a s IH]; [reflexivity|].
  change (String a s +:+ "") with (String a (s +:+ "")). f_equal. exact IH.
Qed.

Lemma string_rev_rev (s : string) : String.rev (String.rev s) = s.
Proof.
  unfold String.rev. rewrite string_rev_app_rev_app. simpl. apply string_app_empty_r.
Qed.

Lemma string_rev_app_app (s1 s2 acc : string) :
  String.rev_app (s1 +:+ s2) acc = String.rev_app s2 (String.rev_app s1 acc).
Proof.
  revert acc. induction s1 as [|a s1 IH]; intros acc; [reflexivity|].
  simpl. apply IH.
Qed.

Lemma string_rev_snoc (s : string) (c : ascii) :
  String.rev (s +:+ String c "") = String c (String.rev s).
Proof. unfold String.rev. rewrite string_rev_app_app. reflexivity. Qed.

Lemma trimStart_snoc (s : string) (c : ascii) :
  is_whitespace c = true →
  trimStart (s +:+ String c "")
  = if bool_decide (trimStart s = "") then "" else trimStart s +:+ String c "".
Proof.
  intros Hc. induction s as [|a s IH].
  - simpl. rewrite Hc. reflexivity.
  - simpl. destruct (is_whitespace a); [exact IH|].
    rewrite bool_decide_eq_false_2 by discriminate. reflexivity.
Qed.

Lemma trim_leading (c : ascii) (s : string) :
  is_whitespace c = true → trim (String c s) = trim s.
Proof. intros Hc. unfold trim. simpl. rewrite Hc. reflexivity. Qed.

Lemma trim_trailing (c : ascii) (s : string) :
  is_whitespace c = true → trim (s +:+ String c "") = trim s.
Proof.
  intros Hc. unfold trim. rewrite (trimStart_snoc s c Hc).
  case_bool_decide as Hempty.
  - rewrite Hempty. reflexivity.
  - unfold trimEnd. rewrite string_rev_snoc. simpl. rewrite Hc. reflexivity.
Qed.

Lemma trim_kept (c0 c1 : ascii) (s0 s1 : string) :
  is_whitespace c0 = false → is_whitespace c1 = false →
  String c0 s0 = s1 +:+ String c1 "" →
  trim (String c0 s0) = String c0 s0.
Proof.
  intros H0 H1 Hs. unfold trim. simpl. rewrite H0. unfold trimEnd.
  rewrite Hs, string_rev_snoc. simpl. rewrite H1.
  rewrite <- string_rev_snoc. apply string_rev_rev.
Qed.

(** C7. On the plain file system [resolveGitDirectory(repoPath)] changes
    nothing and
    - returns [<repoPath>/.git] when that is a directory;
    - when it is a file whose trimmed content matches
      [/^gitdir:\s*(.+)$/], resolves the captured path against [repoPath]
      and returns it if it exists, and throws an error naming [repoPath]
      and the resolved path if not;
    - throws an error naming [repoPath] and the [.git] file when the
      content does not match, as is the case whenever it lacks the prefix
      [gitdir:];
    - throws an error naming [repoPath] when there is no [.git].
    A line [gitdir: <path>] matches with [<path>] captured.  Trimming
    drops the white space at both ends of the content and keeps the
    rest. *)
Theorem resolveGitDirectory_cases {T} `{Path}
    (operation : world → outcome T * world) (w : world) (repoPath : string) :
  let gitPath := path_join repoPath ".git" in
  let r := run (posix operation) (resolveGitDirectory repoPath) w in
  final r = w ∧
  match files w !! gitPath with
  | Some Directory => result r = Ok gitPath
  | Some (File content) =>
      let line := trim content in
      match match_gitdir line with
      | Some group =>
          let gitDirPath := path_resolve2 repoPath group in
          if decide (is_Some (files w !! gitDirPath))
          then result r = Ok gitDirPath
          else result r = Throw (resolve_failed_Error repoPath
                                   (missing_gitdir_Error gitDirPath))
      | None =>
          result r = Throw (resolve_failed_Error repoPath
                              (invalid_format_Error gitPath line))
      end
  | None => result r = Throw (no_git_Error repoPath)
  end ∧
  (∀ line, (¬ ∃ rest, line = "gitdir:" +:+ rest) → match_gitdir line = None) ∧
  (∀ c rest, is_whitespace c = false →
             no_line_terminator (String c rest) = true →
             match_gitdir ("gitdir: " +:+ String c rest) = Some (String c rest)) ∧
  (∀ error,
     message (no_git_Error repoPath) =
       "No .git directory or file found in " +:+ repoPath ∧
     message (resolve_failed_Error repoPath error) =
       "Failed to resolve git directory for " +:+ repoPath +:+ ": "
         +:+ message error) ∧
  (∀ p c,
     message (missing_gitdir_Error p) =
       "Submodule git directory does not exist: " +:+ p ∧
     message (invalid_format_Error p c) =
       "Invalid .git file format in " +:+ p +:+ ": " +:+ c) ∧
  trim "" = "" ∧
  (∀ c s, is_whitespace c = true →
          trim (String c s) = trim s ∧ trim (s +:+ String c "") = trim s) ∧
  (∀ c0 c1 s0 s1,
     is_whitespace c0 = false → is_whitespace c1 = false →
     String c0 s0 = s1 +:+ String c1 "" →
     trim (String c0 s0) = String c0 s0).
Proof.
  intros gitPath r. subst r.
  split; [|split; [|split; [|split; [|split; [|split; [|split; [|split]]]]]]].
  7:{ reflexivity. }
  7:{ intros c s Hc. split; [apply trim_leading | apply trim_trailing]; exact Hc. }
  7:{ apply trim_kept. }
  - unfold resolveGitDirectory, resolve_try, and_then, perform, mbind, prog_bind.
    fold gitPath. simpl.
    destruct (files w !! gitPath) as [[|content]|] eqn:Hgit; simpl;
      try reflexivity.
    rewrite Hgit. simpl.
    destruct (match_gitdir (trim content)) as [group|]; simpl; [|reflexivity].
    case_bool_decide; simpl; [|reflexivity].
    destruct (bool_decide _); reflexivity.
  - unfold resolveGitDirectory, resolve_try, and_then, perform, mbind, prog_bind.
    fold gitPath. simpl.
    destruct (files w !! gitPath) as [[|content]|] eqn:Hgit; simpl;
      try reflexivity.
    rewrite Hgit. simpl.
    destruct (match_gitdir (trim content)) as [group|] eqn:Hm; simpl;
      [|reflexivity].
    rewrite bool_decide_eq_true_2 by (eapply match_gitdir_nonempty; eassumption).
    simpl. case_decide as Hex.
    + rewrite bool_decide_eq_true_2 by assumption. reflexivity.
    + rewrite bool_decide_eq_false_2 by assumption. reflexivity.
  - apply match_gitdir_needs_prefix.
  - apply match_gitdir_line.
  - intros error. split; reflexivity.
  - intros p c. split; reflexivity.
Qed.

(** The example of the specification: a [.git] file holding
    [gitdir: ../.git/modules/sub] and a newline. *)
Example resolveGitDirectory_submodule :
  result (run (posix (idle tt)) (resolveGitDirectory (H:=slash_Path) "/repo/sub")
            submodule_world)
  = Ok "/repo/sub/../.git/modules/sub".
Proof. vm_compute. reflexivity. Qed.

(** ** withGitLock *)

Lemma attempt_no_operation {T W} `{JSON} (h : handler T W) (w : W) proc self :
  operation_calls (trace (run h (attempt proc self) w)) = 0%nat.
Proof. attempt_paths h; reflexivity. Qed.

(** [lock()] never invokes the operation, and it returns either holding
    the lock or throwing with the instance unchanged. *)
Lemma lock_loop_outcome {T W} `{JSON} (h : handler T W) proc self n :
  ∀ a d w,
    let r := run h (lock_loop proc self n a d) w in
    operation_calls (trace r) = 0%nat ∧
    (result r = (set_lockAcquired true self, Ok tt) ∨
     ∃ error, result r = (self, Throw error)).
Proof.
  induction n as [|n IH]; intros a d w.
  - simpl. split; [reflexivity | right; eauto].
  - cbv zeta. rewrite lock_loop_S. cbv zeta.
    pose proof (attempt_no_operation h w proc self) as Hop.
    destruct (result (run h (attempt proc self) w)) as [[]|error].
    + cbn [trace result]. split; [assumption | left; reflexivity].
    + destruct (code_is error "EEXIST").
      * cbn [trace result].
        destruct (IH (S a) (backoff d) (h _ (setTimeout d)
                   (final (run h (attempt proc self) w))).2) as [IH1 IH2].
        split; [|exact IH2].
        unfold operation_calls in *. rewrite count_app, Hop. simpl. exact IH1.
      * cbn [trace result]. split; [assumption | right; eauto].
Qed.

Lemma getRepositoryLock_no_operation {T W} `{Path} (h : handler T W) (w : W)
    self repoPath :
  operation_calls (trace (run h (getRepositoryLock self repoPath) w)) = 0%nat.
Proof.
  unfold getRepositoryLock, resolveGitDirectory, resolve_try,
    registerCleanupHandlers, and_then, perform, mbind, prog_bind.
  destruct (locks self !! path_resolve repoPath); [reflexivity|].
  simpl.
  repeat (match goal with
          | |- context [h ?X ?e ?w] => destruct (h X e w) as [? ?] eqn:?
          | |- context [match ?x with _ => _ end] => destruct x eqn:?
          end; simpl); reflexivity.
Qed.


(** The operation throws: its error is the result, the lock file is gone
    afterwards and the lock kept by the manager is not held. *)
Example withGitLock_operation_throws :
  let r := run (posix failing_operation)
             (withGitLock (H:=slash_Path) (H0:=stamp_JSON) sample_process
                new_RepositoryFileLockManager "/repo")
             repo_world in
  snd (result r) = Throw (new_Error "operation failed") ∧
  files (final r) !! sample_path = None ∧
  locks (fst (result r)) !! "/repo" = Some (new_FileLock sample_path) ∧
  trace r =
    [EvStat "/repo/.git" (Ok (mkStats true false));
     EvProcessOn "exit"; EvProcessOn "SIGINT"; EvProcessOn "SIGTERM";
     EvProcessOn "uncaughtException";
     EvNow 0; EvNow 0; EvExists sample_path false;
     EvWrite sample_path "0" (Ok tt);
     EvNow 0; EvOperation (Throw (new_Error "operation failed"));
     EvExists sample_path true; EvUnlink sample_path (Ok tt)].
Proof. vm_compute. repeat split; reflexivity. Qed.

(** The file system is read-only: [lock()] throws and the operation is
    not invoked. *)
Example withGitLock_lock_fails :
  let r := run (read_only failing_operation)
             (withGitLock (H:=slash_Path) (H0:=stamp_JSON) sample_process
                new_RepositoryFileLockManager "/repo")
             repo_world in
  snd (result r) = Throw (fatal_Error sample_lock (EROFS sample_path)) ∧
  operation_calls (trace r) = 0%nat.
Proof. vm_compute. split; reflexivity. Qed.

(** ** Several processes on one lock file *)

(** The second process fails once with EEXIST while the first holds the
    lock, and acquires after the release: one holder in the end, and
    nobody has deleted the lock file from inside [lock()]. *)
Example hand_over_has_one_holder :
  let s := Concurrent.exec (H:=stamp_JSON) hand_over
             (Concurrent.init sample_path (mkWorld ∅ 0) 2) in
  Concurrent.holds <$> Concurrent.procs s = [false; true] ∧
  Concurrent.reclaims s = 0%nat ∧
  Concurrent.attempts <$> Concurrent.procs s = [1%nat; 2%nat].
Proof. vm_compute. repeat split; reflexivity. Qed.

(** The stale takeover the lock is designed with: a holder that is still
    at work 30001 ms after its [lock()] loses the lock file to the next
    caller, and both hold the lock. *)
Example stale_takeover_gives_two_holders :
  let s := Concurrent.exec (H:=stamp_JSON) stale_takeover
             (Concurrent.init sample_path (mkWorld ∅ 0) 2) in
  Concurrent.holds <$> Concurrent.procs s = [true; true] ∧
  files (Concurrent.shared s) !! sample_path = Some (File "30001").
Proof. vm_compute. split; reflexivity. Qed.

(** The waiter of [release_during_check] has seen the lock file and
    reads it after the holder has deleted it: its [lock()] is over after
    one attempt, without the lock. *)
Example waiter_fails_when_release_races_with_read :
  let s := Concurrent.exec (H:=stamp_JSON) release_during_check
             (Concurrent.init sample_path (mkWorld ∅ 0) 2) in
  (λ p, (Concurrent.holds p, Concurrent.attempts p,
         bool_decide (Concurrent.running p = None)))
    <$> Concurrent.procs s
  = [(false, 1%nat, true); (false, 1%nat, true)] ∧
  (Concurrent.history <$> Concurrent.procs s) !! 1%nat =
    Some [(Concurrent.in_lock, EvNow 0);
          (Concurrent.in_lock, EvExists sample_path true);
          (Concurrent.in_lock, EvRead sample_path (Throw (ENOENT sample_path)))].
Proof. vm_compute. split; reflexivity. Qed.

(** C1.  A lock file with the timestamp 0 has been left behind by a
    process that is gone; at time 30001 two processes call [lock()] and
    run as in [reclaim_race].  Both calls return with the flag set: two
    holders at the same instant, each with a lock created at time 30001,
    and neither has called [unlock()].  The second process has deleted
    the lock file the first had just created, not the stale one it had
    read. *)
Theorem two_fresh_processes_both_hold_the_lock :
  let s := Concurrent.exec (H:=stamp_JSON) reclaim_race
             (Concurrent.init sample_path (locked_world "0" 30001) 2) in
  let one_call :=
    [(Concurrent.in_lock, EvNow 30001);
     (Concurrent.in_lock, EvExists sample_path true);
     (Concurrent.in_lock, EvRead sample_path (Ok "0"));
     (Concurrent.in_lock, EvNow 30001);
     (Concurrent.in_lock, EvUnlink sample_path (Ok tt));
     (Concurrent.in_lock, EvWrite sample_path "30001" (Ok tt))] in
  Concurrent.holds <$> Concurrent.procs s = [true; true] ∧
  Concurrent.holders s = 2%nat ∧
  Concurrent.running <$> Concurrent.procs s = [None; None] ∧
  Concurrent.history <$> Concurrent.procs s = [one_call; one_call] ∧
  clock (Concurrent.shared s) = 30001 ∧
  files (Concurrent.shared s) !! sample_path = Some (File "30001").
Proof. vm_compute. repeat split; reflexivity. Qed.

(** * Further properties *)

(** ** FileLock: what a call to lock() does and does not do *)

Lemma attempt_scope {T W} `{JSON} (h : handler T W) (w : W) proc self :
  let r := run h (attempt proc self) w in
  Forall (touches_only (lockPath self)) (trace r) ∧
  count is_successful_create (trace r) =
    match result r with Ok _ => 1%nat | Throw _ => 0%nat end.
Proof.
  attempt_paths h;
    (split;
     [repeat first
        [apply List.Forall_nil
        |apply List.Forall_cons; [simpl; first [reflexivity | exact I]|]]
     |first [reflexivity | exfalso; congruence]]).
Qed.

Lemma lock_loop_scope {T W} `{JSON} (h : handler T W) proc self n : ∀ a d w,
  let r := run h (lock_loop proc self n a d) w in
  Forall (touches_only (lockPath self)) (trace r) ∧
  count is_successful_create (trace r) =
    match snd (result r) with Ok _ => 1%nat | Throw _ => 0%nat end.
Proof.
  induction n as [|n IH]; intros a d w.
  - simpl. split; [constructor | reflexivity].
  - cbv zeta. rewrite lock_loop_S. cbv zeta.
    pose proof (attempt_scope h w proc self) as [Hall Hone]. cbv zeta in Hall, Hone.
    destruct (result (run h (attempt proc self) w)) as [[]|error].
    + cbn [trace result snd]. split; assumption.
    + destruct (code_is error "EEXIST").
      * cbn [trace result].
        destruct (IH (S a) (backoff d) (h _ (setTimeout d)
                   (final (run h (attempt proc self) w))).2) as [IH1 IH2].
        split.
        -- apply Forall_app. split; [assumption|].
           constructor; [exact I | assumption].
        -- rewrite count_app, Hone. simpl. exact IH2.
      * cbn [trace result snd]. split; assumption.
Qed.

(** X1. Whatever the file system answers, every call [lock()] makes
    names its own lock path (or is the clock or a timer); it creates the
    lock file exactly once when it returns and not at all when it throws;
    it returns with the flag set, and throws with the instance as it
    was. *)
Theorem lock_creates_once_or_not_at_all {T W} `{JSON}
    (h : handler T W) (w : W) (proc : Process) (self : FileLock) :
  let r := run h (lock proc self) w in
  Forall (touches_only (lockPath self)) (trace r) ∧
  ((result r = (set_lockAcquired true self, Ok tt) ∧
    count is_successful_create (trace r) = 1%nat) ∨
   (∃ error, result r = (self, Throw error) ∧
             count is_successful_create (trace r) = 0%nat)).
Proof.
  cbv zeta. unfold lock.
  destruct (lock_loop_scope h proc self maxRetries 0%nat retryDelay w)
    as [Hall Hone].
  destruct (lock_loop_outcome h proc self maxRetries 0%nat retryDelay w)
    as [_ [Hres|[error Hres]]].
  - split; [exact Hall|]. left. rewrite Hres in Hone. split; assumption.
  - split; [exact Hall|]. right. exists error. rewrite Hres in Hone.
    split; assumption.
Qed.

Lemma attempt_in_directory {T} `{JSON} `{Dirs}
    (operation : world → outcome T * world)
    (proc : Process) (self : FileLock) (w : world) :
  files w !! lockPath self = None →
  run (posix_tree operation) (attempt proc self) w =
    match files w !! path_dirname (lockPath self) with
    | Some Directory =>
        mkRun (Ok tt) (created proc self w)
          [EvNow (clock w); EvExists (lockPath self) false;
           EvWrite (lockPath self) (lock_file_data proc w) (Ok tt)]
    | Some (File _) =>
        mkRun (Throw (ENOTDIR (lockPath self))) w
          [EvNow (clock w); EvExists (lockPath self) false;
           EvWrite (lockPath self) (lock_file_data proc w)
             (Throw (ENOTDIR (lockPath self)))]
    | None =>
        mkRun (Throw (ENOENT (lockPath self))) w
          [EvNow (clock w); EvExists (lockPath self) false;
           EvWrite (lockPath self) (lock_file_data proc w)
             (Throw (ENOENT (lockPath self)))]
    end.
Proof.
  intros Hf. unfold attempt, and_then, perform, mbind, prog_bind. simpl.
  rewrite Hf. simpl.
  destruct (files w !! path_dirname (lockPath self)) as [[|c]|]; simpl;
    rewrite ?Hf; reflexivity.
Qed.

(** X2. Alone on a file system without a lock file.  When the directory
    of the lock path exists, [lock()] acquires at its first attempt with
    three calls and leaves a lock file carrying its timestamp, and
    [unlock()] after it deletes that file again: files and clock are as
    before, and the instance is not held.  When the directory is missing
    (or is a file), the create fails with ENOENT (ENOTDIR), [lock()]
    throws at its first attempt with the instance as it was, and nothing
    has changed. *)
Theorem lock_then_unlock_restores_the_file_system {T} `{JSON} `{Dirs}
    (operation : world → outcome T * world) (w : world)
    (proc : Process) (self : FileLock) :
  files w !! lockPath self = None →
  lockAcquired self = false →
  let r1 := run (posix_tree operation) (lock proc self) w in
  let r2 := run (posix_tree operation) (unlock (fst (result r1))) (final r1) in
  match files w !! path_dirname (lockPath self) with
  | Some Directory =>
      result r1 = (set_lockAcquired true self, Ok tt) ∧
      trace r1 = [EvNow (clock w); EvExists (lockPath self) false;
                  EvWrite (lockPath self) (lock_file_data proc w) (Ok tt)] ∧
      files (final r1) !! lockPath self = Some (File (lock_file_data proc w)) ∧
      result r2 = (self, Ok tt) ∧
      final r2 = w
  | Some (File _) =>
      result r1 = (self, Throw (fatal_Error self (ENOTDIR (lockPath self)))) ∧
      final r1 = w ∧
      trace r2 = [] ∧ final r2 = w
  | None =>
      result r1 = (self, Throw (fatal_Error self (ENOENT (lockPath self)))) ∧
      final r1 = w ∧
      trace r2 = [] ∧ final r2 = w
  end.
Proof.
  intros Hnone Hflag r1 r2. subst r1 r2. unfold lock.
  change maxRetries with (S 99). rewrite lock_loop_S. cbv zeta.
  rewrite (attempt_in_directory operation proc self w Hnone).
  destruct (files w !! path_dirname (lockPath self)) as [[|c]|] eqn:Hdir;
    cbn [result final trace fst].
  - split; [reflexivity|]. split; [reflexivity|].
    split; [apply lookup_insert_eq|].
    rewrite (unlock_held _ _ (set_lockAcquired true self) eq_refl).
    assert (Hin : files (created proc self w) !! lockPath self
                  = Some (File (lock_file_data proc w))) by apply lookup_insert_eq.
    simpl. unfold created in *. simpl in *.
    rewrite Hin. simpl.
    split.
    + destruct self as [p f]. simpl in Hflag. subst f. reflexivity.
    + rewrite delete_insert_id by exact Hnone. destruct w. reflexivity.
  - change (code_is (ENOTDIR (lockPath self)) "EEXIST") with false. cbv iota.
    cbn [result final trace fst].
    rewrite (unlock_free _ w self Hflag). repeat split.
  - change (code_is (ENOENT (lockPath self)) "EEXIST") with false. cbv iota.
    cbn [result final trace fst].
    rewrite (unlock_free _ w self Hflag). repeat split.
Qed.

(** In the checkout [/repo] the lock file is created and removed again;
    without the directory [/repo/.git] the lock is not acquired. *)
Lemma lock_then_unlock_restores_the_file_system_witness :
  final (run (posix_tree (H:=slash_Dirs) (idle tt))
           (unlock (set_lockAcquired true sample_lock))
           (final (run (posix_tree (H:=slash_Dirs) (idle tt))
                     (lock (H:=stamp_JSON) sample_process sample_lock)
                     repo_world)))
  = repo_world ∧
  result (run (posix_tree (H:=slash_Dirs) (idle tt))
            (lock (H:=stamp_JSON) sample_process sample_lock) (mkWorld ∅ 0))
  = (sample_lock, Throw (fatal_Error sample_lock (ENOENT sample_path))).
Proof.
  split.
  - pose proof (lock_then_unlock_restores_the_file_system (H:=stamp_JSON)
                  (H0:=slash_Dirs) (idle tt) repo_world sample_process
                  sample_lock) as Hthm.
    cbv zeta in Hthm.
    change (files repo_world !! path_dirname (lockPath sample_lock))
      with (Some Directory) in Hthm.
    destruct Hthm as (Hres & _ & _ & _ & Hback).
    + vm_compute. reflexivity.
    + reflexivity.
    + rewrite Hres in Hback. exact Hback.
  - pose proof (lock_then_unlock_restores_the_file_system (H:=stamp_JSON)
                  (H0:=slash_Dirs) (idle tt) (mkWorld ∅ 0) sample_process
                  sample_lock) as Hthm.
    cbv zeta in Hthm.
    change (files (mkWorld ∅ 0) !! path_dirname (lockPath sample_lock))
      with (@None node) in Hthm.
    destruct Hthm as (Hres & _).
    + reflexivity.
    + reflexivity.
    + exact Hres.
Defined.

(** ** FileLock: how long lock() waits *)

Lemma sleep_of_bound (k : nat) :
  (k ≤ maxRetries)%nat → (sleep_of k <= longest_sleep)%Q.
Proof.
  intros Hk.
  assert (Hall : forallb (λ k, Qle_bool (sleep_of k) longest_sleep)
                   (seq 0 (S maxRetries)) = true) by (vm_compute; reflexivity).
  rewrite forallb_forall in Hall. apply Qle_bool_imp_le, Hall.
  apply in_seq. lia.
Qed.

(** X3. Whatever the file system answers, the timers of one [lock()] add
    up to at most 188925.78125 ms (a little over three minutes), and to
    exactly that when all 100 attempts fail with EEXIST. *)
Theorem lock_total_sleep_is_bounded {T W} `{JSON}
    (h : handler T W) (w : W) (proc : Process) (self : FileLock) :
  let r := run h (lock proc self) w in
  (total_sleep (trace r) <= longest_sleep)%Q ∧
  (EEXIST_failures (trace r) = maxRetries →
   (total_sleep (trace r) == longest_sleep)%Q) ∧
  (longest_sleep == 188925 + (25 # 32))%Q.
Proof.
  cbv zeta. unfold lock, total_sleep.
  pose proof (lock_loop_trace h proc self maxRetries 0%nat retryDelay w) as Hl.
  cbv zeta in Hl. destruct Hl as (Hk & _ & _ & Hsleep & _).
  rewrite Hsleep. split; [|split].
  - apply (sleep_of_bound _ Hk).
  - intros ->. vm_compute. reflexivity.
  - vm_compute. reflexivity.
Qed.






(** ** RepositoryFileLockManager.getRepositoryLock *)

(** The lock handed out is the entry of the map under the resolved
    path. *)
Lemma getRepositoryLock_lookup {T W} `{Path} (h : handler T W) (w : W)
    (self : RepositoryFileLockManager) (repoPath : string) :
  match result (run h (getRepositoryLock self repoPath) w) with
  | (self', Ok (k, l)) =>
      k = path_resolve repoPath ∧ locks self' !! path_resolve repoPath = Some l
  | (_, Throw _) => True
  end.
Proof.
  unfold getRepositoryLock, resolveGitDirectory, resolve_try,
    registerCleanupHandlers, and_then, perform, mbind, prog_bind.
  destruct (locks self !! path_resolve repoPath) as [l0|] eqn:Hcached.
  - simpl. split; [reflexivity | exact Hcached].
  - simpl.
    repeat (match goal with
            | |- context [h ?X ?e ?w] => destruct (h X e w) as [? ?] eqn:?
            | |- context [match ?x with _ => _ end] =>
                lazymatch x with
                | context [run] => fail
                | _ => destruct x eqn:?
                end
            end; simpl);
      first [ exact I | split; [reflexivity | apply lookup_insert_eq] ].
Qed.

(** X5. Whatever the file system answers, [getRepositoryLock(repoPath)]
    deletes and creates no file and sets no timer.  When it throws, the
    manager is unchanged and nothing was cached.  When it returns, the
    lock is the entry of the map under [path.resolve(repoPath)] and no
    other entry changed; a cached lock is returned without any call; a
    new lock is not held, the cleanup flag is set afterwards, and
    [process.on] was called four times if the flag was clear and not at
    all if it was set. *)
Theorem getRepositoryLock_effects {T W} `{Path} (h : handler T W) (w : W)
    (self : RepositoryFileLockManager) (repoPath : string) :
  let r := run h (getRepositoryLock self repoPath) w in
  let key := path_resolve repoPath in
  count is_mutation (trace r) = 0%nat ∧
  sleeps (trace r) = [] ∧
  match (result r).2 with
  | Throw _ =>
      (result r).1 = self ∧ locks self !! key = None ∧
      count is_process_on (trace r) = 0%nat
  | Ok (k, l) =>
      k = key ∧
      locks (result r).1 !! key = Some l ∧
      (∀ k', k' ≠ key → locks (result r).1 !! k' = locks self !! k') ∧
      match locks self !! key with
      | Some l0 => l = l0 ∧ (result r).1 = self ∧ trace r = []
      | None =>
          lockAcquired l = false ∧
          cleanupRegistered (result r).1 = true ∧
          count is_process_on (trace r)
            = if cleanupRegistered self then 0%nat else 4%nat
      end
  end.
Proof.
  cbv zeta.
  unfold getRepositoryLock, resolveGitDirectory, resolve_try,
    registerCleanupHandlers, and_then, perform, mbind, prog_bind.
  destruct (locks self !! path_resolve repoPath) as [l0|] eqn:Hcached.
  - simpl. rewrite Hcached. repeat split; reflexivity.
  - destruct (cleanupRegistered self) eqn:Hreg; simpl;
    repeat (match goal with
            | |- context [h ?X ?e ?w] => destruct (h X e w) as [? ?] eqn:?
            | |- context [match ?x with _ => _ end] =>
                lazymatch x with
                | context [run] => fail
                | _ => destruct x eqn:?
                end
            end; simpl);
      repeat split;
      first [ reflexivity
            | apply lookup_insert_eq
            | intros k' Hk'; simpl; apply lookup_insert_ne; congruence
            | assumption
            | idtac ].
Qed.

(** X6. One lock per repository: once [getRepositoryLock] has returned a
    lock for a path, every later call of the manager with a path that
    [path.resolve] sends to the same place returns that same lock, makes
    no call at all and leaves the manager as it is. *)
Theorem getRepositoryLock_returns_the_cached_lock {T W W'} `{Path}
    (h : handler T W) (w : W) (h' : handler T W') (w' : W')
    (self self' : RepositoryFileLockManager) (repoPath repoPath' key : string)
    (l : FileLock) :
  result (run h (getRepositoryLock self repoPath) w) = (self', Ok (key, l)) →
  path_resolve repoPath' = path_resolve repoPath →
  run h' (getRepositoryLock self' repoPath') w' = mkRun (self', Ok (key, l)) w' [].
Proof.
  intros Hfirst Hsame.
  pose proof (getRepositoryLock_lookup h w self repoPath) as Hl.
  rewrite Hfirst in Hl. simpl in Hl. destruct Hl as [-> Hl].
  unfold getRepositoryLock at 1. rewrite Hsame, Hl. reflexivity.
Qed.

Lemma getRepositoryLock_returns_the_cached_lock_witness :
  run (T:=unit) (posix (idle tt))
    (getRepositoryLock (H:=slash_Path)
       (mkManager {[ "/repo" := new_FileLock sample_path ]} true) "/repo")
    repo_world
  = mkRun (mkManager {[ "/repo" := new_FileLock sample_path ]} true,
           Ok ("/repo", new_FileLock sample_path)) repo_world [].
Proof.
  apply (getRepositoryLock_returns_the_cached_lock (H:=slash_Path) (T:=unit)
           (posix (idle tt)) repo_world (posix (idle tt)) repo_world
           new_RepositoryFileLockManager _ "/repo" "/repo").
  - vm_compute. reflexivity.
  - reflexivity.
Defined.

(** ** RepositoryFileLockManager.destroy *)

Lemma store_same (key : string) (l : FileLock) (self : RepositoryFileLockManager) :
  locks self !! key = Some l → store key l self = self.
Proof.
  intros Hl. unfold store. rewrite insert_id by exact Hl.
  destruct self; reflexivity.
Qed.

Lemma holds_lock_at_store (key : string) (l : FileLock)
    (self : RepositoryFileLockManager) (p : string) :
  locks self !! key = Some l →
  holds_lock_at (store key (set_lockAcquired false l) self) p →
  holds_lock_at self p.
Proof.
  intros Hl (key' & l' & Hl' & Hheld & Hpath). unfold store in Hl'. simpl in Hl'.
  destruct (decide (key' = key)) as [->|Hne].
  - rewrite lookup_insert_eq in Hl'. injection Hl' as <-. discriminate.
  - rewrite lookup_insert_ne in Hl' by congruence.
    exists key', l'. repeat split; assumption.
Qed.

Lemma is_release_of_store {T} (key : string) (l : FileLock)
    (self : RepositoryFileLockManager) (e : event T) :
  locks self !! key = Some l →
  is_release_of (store key (set_lockAcquired false l) self) e →
  is_release_of self e.
Proof.
  intros Hl. destruct e; simpl; try tauto; apply holds_lock_at_store, Hl.
Qed.

Lemma destroy_loop_any {T W} (h : handler T W) (keys : list string) :
  ∀ (self : RepositoryFileLockManager) (w : W),
    let r := run h (destroy_loop keys self) w in
    (result r).2 = Ok tt ∧
    cleanupRegistered (result r).1 = cleanupRegistered self ∧
    Forall (is_release_of self) (trace r).
Proof.
  induction keys as [|key keys IH]; intros self w; cbv zeta.
  - simpl. repeat split. apply List.Forall_nil.
  - cbn [destroy_loop].
    destruct (locks self !! key) as [l|] eqn:Hl; [|apply IH].
    rewrite run_bind. cbv zeta.
    destruct (lockAcquired l) eqn:Hheld.
    + assert (Hat : holds_lock_at self (lockPath l))
        by (exists key, l; repeat split; assumption).
      rewrite (unlock_held h w l Hheld).
      destruct (h bool (fs_existsSync (lockPath l)) w) as [[] w1].
      * destruct (h (outcome unit) (fs_unlinkSync (lockPath l)) w1) as [u w2].
        cbn [result final trace].
        destruct (IH (store key (set_lockAcquired false l) self) w2)
          as (Hres & Hreg & Hall).
        split; [exact Hres|]. split; [exact Hreg|].
        simpl. apply List.Forall_cons; [exact Hat|].
        apply List.Forall_cons; [exact Hat|].
        eapply Forall_impl; [exact Hall|].
        intros e. apply is_release_of_store, Hl.
      * cbn [result final trace].
        destruct (IH (store key (set_lockAcquired false l) self) w1)
          as (Hres & Hreg & Hall).
        split; [exact Hres|]. split; [exact Hreg|].
        simpl. apply List.Forall_cons; [exact Hat|].
        eapply Forall_impl; [exact Hall|].
        intros e. apply is_release_of_store, Hl.
    + rewrite (unlock_free h w l Hheld). cbn [result final trace].
      rewrite (store_same key l self Hl). apply IH.
Qed.

(** X7. Whatever the file system answers and in whatever order the locks
    are visited, [destroy()] returns normally with an empty map and the
    cleanup flag as it was (so a manager that registered its handlers
    never registers them again), and every call it makes asks for, or
    deletes, the lock file of a lock that was held: locks that are not
    held cost no call and no other file is touched. *)
Theorem destroy_never_raises {T W} (h : handler T W) (w : W)
    (keys : list string) (self : RepositoryFileLockManager) :
  let r := run h (destroy keys self) w in
  result r = (mkManager ∅ (cleanupRegistered self), Ok tt) ∧
  Forall (is_release_of self) (trace r) ∧
  ((∀ key l, locks self !! key = Some l → lockAcquired l = false) →
   trace r = []).
Proof.
  cbv zeta. unfold destroy. rewrite run_bind. cbv zeta.
  destruct (destroy_loop_any h keys self w) as (Hres & Hreg & Hall).
  destruct (result (run h (destroy_loop keys self) w)) as [self' o] eqn:Hr.
  simpl in Hres, Hreg. subst o. cbn [result final trace].
  rewrite app_nil_r, Hreg. split; [reflexivity|]. split; [exact Hall|].
  intros Hfree.
  destruct (trace (run h (destroy_loop keys self) w)) as [|e t]; [reflexivity|].
  exfalso. apply Forall_cons in Hall as [He _].
  assert (Hno : ∀ p, ¬ holds_lock_at self p).
  { intros p (key & l & Hl & Hheld & _). rewrite (Hfree key l Hl) in Hheld.
    discriminate. }
  destruct e; simpl in He; try exact He; exact (Hno _ He).
Qed.

Lemma held_on_store (key : string) (l : FileLock)
    (self : RepositoryFileLockManager) (p : string) (keys : list string) :
  locks self !! key = Some l →
  lockPath l ≠ p →
  held_on (store key (set_lockAcquired false l) self) keys p = held_on self keys p.
Proof.
  intros Hl Hp. induction keys as [|key' keys IH]; [reflexivity|].
  unfold held_on in *. cbn [existsb]. rewrite IH. f_equal.
  unfold store. cbn [locks].
  destruct (decide (key' = key)) as [->|Hne].
  - rewrite lookup_insert_eq, Hl. simpl.
    rewrite bool_decide_eq_false_2 by exact Hp. rewrite andb_false_r.
    reflexivity.
  - rewrite lookup_insert_ne by congruence. reflexivity.
Qed.

Lemma destroy_loop_posix {T} (operation : world → outcome T * world)
    (keys : list string) :
  ∀ (self : RepositoryFileLockManager) (w : world),
    let r := run (posix operation) (destroy_loop keys self) w in
    clock (final r) = clock w ∧
    ∀ p, files (final r) !! p =
           match files w !! p with
           | Some (File c) => if held_on self keys p then None else Some (File c)
           | other => other
           end.
Proof.
  induction keys as [|key keys IH]; intros self w; cbv zeta.
  - simpl. split; [reflexivity|]. intros p.
    destruct (files w !! p) as [[|c]|]; reflexivity.
  - cbn [destroy_loop].
    destruct (locks self !! key) as [l|] eqn:Hl.
    2:{ destruct (IH self w) as [Hclock Hfiles]. split; [exact Hclock|].
        intros p. rewrite Hfiles. unfold held_on. cbn [existsb].
        rewrite Hl. reflexivity. }
    rewrite run_bind. cbv zeta.
    destruct (lockAcquired l) eqn:Hheld.
    + rewrite (unlock_held (posix operation) w l Hheld). simpl.
      destruct (files w !! lockPath l) as [[|c]|] eqn:Hfile; simpl;
        rewrite ?Hfile; simpl;
        match goal with
        | |- context [run _ (destroy_loop keys ?s) ?w'] =>
            destruct (IH s w') as [Hclock Hfiles]
        end;
        (split; [exact Hclock|]); intros p; rewrite Hfiles;
        unfold held_on at 2; cbn [existsb]; rewrite Hl, Hheld; simpl;
        destruct (decide (lockPath l = p)) as [<-|Hp].
      * rewrite Hfile. reflexivity.
      * rewrite (held_on_store key l self p keys Hl Hp).
        rewrite bool_decide_eq_false_2 by exact Hp. reflexivity.
      * rewrite lookup_delete_eq, Hfile.
        rewrite bool_decide_eq_true_2 by reflexivity. reflexivity.
      * rewrite lookup_delete_ne by exact Hp.
        rewrite (held_on_store key l self p keys Hl Hp).
        rewrite bool_decide_eq_false_2 by exact Hp. reflexivity.
      * rewrite Hfile. reflexivity.
      * rewrite (held_on_store key l self p keys Hl Hp).
        rewrite bool_decide_eq_false_2 by exact Hp. reflexivity.
    + rewrite (unlock_free (posix operation) w l Hheld). cbn [result final trace].
      rewrite (store_same key l self Hl).
      destruct (IH self w) as [Hclock Hfiles]. split; [exact Hclock|].
      intros p. rewrite Hfiles. unfold held_on. cbn [existsb].
      rewrite Hl, Hheld. reflexivity.
Qed.

(** X8. On the plain file system, when the visit reaches every entry of
    the map, [destroy()] removes the lock file of every lock that is
    held (unless a directory sits at its path) and changes nothing else:
    a path where no held lock has its file keeps what it had, and the
    clock does not move. *)
Theorem destroy_releases_every_held_lock {T}
    (operation : world → outcome T * world) (w : world)
    (keys : list string) (self : RepositoryFileLockManager) :
  (∀ key, is_Some (locks self !! key) → key ∈ keys) →
  let r := run (posix operation) (destroy keys self) w in
  clock (final r) = clock w ∧
  (∀ p, holds_lock_at self p → files w !! p ≠ Some Directory →
        files (final r) !! p = None) ∧
  (∀ p, ¬ holds_lock_at self p → files (final r) !! p = files w !! p).
Proof.
  intros Hkeys. cbv zeta. unfold destroy. rewrite run_bind. cbv zeta.
  destruct (destroy_loop_any (posix operation) keys self w) as (Hres & _ & _).
  destruct (destroy_loop_posix operation keys self w) as [Hclock Hfiles].
  destruct (result (run (posix operation) (destroy_loop keys self) w))
    as [self' o] eqn:Hr.
  simpl in Hres. subst o. cbn [result final trace].
  split; [exact Hclock|]. split.
  - intros p (key & l & Hl & Hheld & Hpath) Hdir. rewrite Hfiles.
    assert (Hon : held_on self keys p = true).
    { unfold held_on. apply existsb_exists. exists key. split.
      - apply list_elem_of_In, Hkeys. rewrite Hl. eexists; reflexivity.
      - rewrite Hl, Hheld. simpl. apply bool_decide_eq_true_2, Hpath. }
    rewrite Hon. destruct (files w !! p) as [[|c]|]; [contradiction|reflexivity..].
  - intros p Hno. rewrite Hfiles.
    destruct (held_on self keys p) eqn:Hon.
    + exfalso. apply Hno. unfold held_on in Hon.
      apply existsb_exists in Hon as (key & _ & Hkey).
      destruct (locks self !! key) as [l|] eqn:Hl; [|discriminate].
      apply andb_true_iff in Hkey as [Hheld Hpath].
      apply bool_decide_eq_true_1 in Hpath.
      exists key, l. repeat split; assumption.
    + destruct (files w !! p) as [[|c]|]; reflexivity.
Qed.

(** The manager holds the lock of [/repo] when the cleanup runs: the lock
    file is gone afterwards. *)
Lemma destroy_releases_every_held_lock_witness :
  files (final (run (T:=unit) (posix (idle tt)) (destroy ["/repo"] holding_manager)
                  (locked_world "0" 10))) !! sample_path = None.
Proof.
  pose proof (destroy_releases_every_held_lock (T:=unit) (idle tt)
                (locked_world "0" 10) ["/repo"] holding_manager) as Hthm.
  cbv zeta in Hthm. destruct Hthm as (_ & Hgone & _).
  - intros key [l Hl]. unfold holding_manager in Hl. cbn [locks] in Hl.
    apply lookup_singleton_Some in Hl as [<- _]. left.
  - apply Hgone.
    + exists "/repo", (mkFileLock sample_path true).
      split; [reflexivity|]. split; reflexivity.
    + vm_compute. discriminate.
Defined.

(** ** withGitLock on the plain file system *)

Lemma getRepositoryLock_fresh {T} `{Path} (operation : world → outcome T * world)
    (w : world) (self : RepositoryFileLockManager) (repoPath : string) :
  let key := path_resolve repoPath in
  let gitDir := path_join key ".git" in
  let l := new_FileLock (path_join gitDir "kodrdriv.lock") in
  locks self !! key = None →
  files w !! gitDir = Some Directory →
  let r := run (posix operation) (getRepositoryLock self repoPath) w in
  result r = (mkManager (<[key := l]> (locks self)) true, Ok (key, l)) ∧
  final r = w.
Proof.
  intros key gitDir l Hcached Hgit. cbv zeta.
  unfold getRepositoryLock, resolveGitDirectory, resolve_try,
    registerCleanupHandlers, and_then, perform, mbind, prog_bind.
  fold key. rewrite Hcached. simpl. fold gitDir. rewrite Hgit. simpl.
  destruct (cleanupRegistered self); simpl; split; reflexivity.
Qed.

Lemma unlock_posix {T} (operation : world → outcome T * world) (w : world)
    (self : FileLock) :
  lockAcquired self = true →
  let r := run (posix operation) (unlock self) w in
  result r = (set_lockAcquired false self, Ok tt) ∧
  final r = match files w !! lockPath self with
            | Some (File _) => mkWorld (delete (lockPath self) (files w)) (clock w)
            | _ => w
            end.
Proof.
  intros Hheld. cbv zeta. rewrite (unlock_held _ _ _ Hheld). simpl.
  destruct (files w !! lockPath self) as [[|c]|]; simpl; split; reflexivity.
Qed.

(** X9. On the plain file system, for a repository with a [.git]
    directory, no lock file and no cached lock, [withGitLock] runs the
    operation on a file system that holds the lock file with this
    process's timestamp, hands on what the operation returned or threw,
    and afterwards the lock file is gone (unless the operation put a
    directory there) while everything else is as the operation left it;
    the manager keeps the lock, not held. *)
Theorem withGitLock_holds_the_lock_file_during_the_operation {T} `{Path} `{JSON}
    (operation : world → outcome T * world) (w : world) (proc : Process)
    (self : RepositoryFileLockManager) (repoPath : string) :
  let key := path_resolve repoPath in
  let gitDir := path_join key ".git" in
  let l := new_FileLock (path_join gitDir "kodrdriv.lock") in
  locks self !! key = None →
  files w !! gitDir = Some Directory →
  files w !! lockPath l = None →
  let during := created proc l w in
  let after := (operation during).2 in
  let r := run (posix operation) (withGitLock proc self repoPath) w in
  files during !! lockPath l = Some (File (lock_file_data proc w)) ∧
  (∀ p, p ≠ lockPath l → files during !! p = files w !! p) ∧
  result r = (mkManager (<[key := l]> (locks self)) true, (operation during).1) ∧
  clock (final r) = clock after ∧
  (files after !! lockPath l ≠ Some Directory →
   files (final r) !! lockPath l = None) ∧
  (∀ p, p ≠ lockPath l → files (final r) !! p = files after !! p).
Proof.
  intros key gitDir l Hcached Hgit Hfree during after r. subst r.
  split; [apply lookup_insert_eq|].
  split; [intros p Hp; apply lookup_insert_ne; congruence|].
  unfold withGitLock. rewrite run_bind. cbv zeta.
  destruct (getRepositoryLock_fresh operation w self repoPath Hcached Hgit)
    as [Hres Hfin].
  rewrite Hres, Hfin. cbn [result final trace]. fold key gitDir l.
  rewrite run_bind, run_perform. cbv zeta. cbn [result final trace].
  change ((posix operation Z Date_now w).2) with w.
  rewrite run_bind. cbv zeta.
  unfold lock. change maxRetries with (S 99). rewrite lock_loop_S. cbv zeta.
  rewrite (attempt_absent operation proc l w Hfree).
  cbn [result final trace]. fold during.
  rewrite run_bind, run_perform. cbv zeta. cbn [result final trace].
  change ((posix operation Z Date_now during).2) with during.
  rewrite run_bind, run_perform. cbv zeta. cbn [result final trace].
  change (posix operation (outcome T) call_operation during) with (operation during).
  fold after.
  rewrite run_bind. cbv zeta.
  destruct (unlock_posix operation after (set_lockAcquired true l) eq_refl)
    as [Hu Hf].
  rewrite Hu, Hf. cbn [result final trace].
  change (lockPath (set_lockAcquired true l)) with (lockPath l).
  change (set_lockAcquired false (set_lockAcquired true l)) with l.
  split.
  { unfold store. cbn [locks cleanupRegistered].
    rewrite !insert_insert_eq. reflexivity. }
  destruct (files after !! lockPath l) as [[|c]|] eqn:Hafter.
  - split; [reflexivity|]. split; [congruence|]. intros p _. reflexivity.
  - split; [reflexivity|]. split.
    + intros _. apply lookup_delete_eq.
    + intros p Hp. apply lookup_delete_ne. congruence.
  - split; [reflexivity|]. split; [intros _; exact Hafter|].
    intros p _. reflexivity.
Qed.

(** A repository with a [.git] directory: the operation sees the lock
    file, and it is gone afterwards. *)
Lemma withGitLock_holds_the_lock_file_during_the_operation_witness :
  files (final (run (posix failing_operation)
                  (withGitLock (H:=slash_Path) (H0:=stamp_JSON) sample_process
                     new_RepositoryFileLockManager "/repo")
                  repo_world)) !! sample_path = None.
Proof.
  pose proof (withGitLock_holds_the_lock_file_during_the_operation
                (H:=slash_Path) (H0:=stamp_JSON) failing_operation repo_world
                sample_process new_RepositoryFileLockManager "/repo") as Hthm.
  cbv zeta in Hthm. destruct Hthm as (_ & _ & _ & _ & Hgone & _).
  - reflexivity.
  - vm_compute. reflexivity.
  - vm_compute. reflexivity.
  - apply Hgone. vm_compute. discriminate.
Defined.

(** ** TransactionLog: record, rollbackAll and the rollback helpers *)

Lemma undo_head {W} (back : list (Transaction.TransactionOperation W)) (w : W) :
  head (Transaction.attempted (Transaction.undo back [] [] w)) = head back.
Proof.
  destruct back as [|op back]; [reflexivity|].
  cbn [Transaction.undo].
  destruct (Transaction.rollback op w) as [[|error] w']; cbv zeta.
  - rewrite undo_accumulates. reflexivity.
  - destruct (Transaction.read_message error); [|reflexivity].
    rewrite undo_accumulates. reflexivity.
Qed.

(** X10. [rollbackAll()] a second time.  The rollbacks a run calls are
    the most recent operations in reverse order of recording.  After a
    run that returned, all were called, the log is empty, and the second
    run calls nothing and returns.  After a run that threw, the log still
    holds every operation, so the second run starts over with the most
    recent operation, whose rollback had been called already; when no
    rollback ever rejects with [undefined] or [null], both runs call every
    rollback, those that had succeeded included. *)
Theorem rollbackAll_again {W} (self : Transaction.TransactionLog W) (w : W) :
  let r1 := Transaction.rollbackAll self w in
  let r2 := Transaction.rollbackAll (Transaction.log_after r1)
              (Transaction.state_after r1) in
  Transaction.calls r1 `prefix_of` reverse (Transaction.operations self) ∧
  match Transaction.outcome_of r1 with
  | Ok _ =>
      Transaction.calls r1 = reverse (Transaction.operations self) ∧
      Transaction.hasOperations (Transaction.log_after r1) = false ∧
      Transaction.calls r2 = [] ∧
      Transaction.outcome_of r2 = Ok tt ∧
      Transaction.state_after r2 = Transaction.state_after r1
  | Throw _ =>
      Transaction.log_after r1 = self ∧
      Transaction.count (Transaction.log_after r1) = Transaction.count self ∧
      head (Transaction.calls r2) = head (Transaction.calls r1) ∧
      (Transaction.never_nullish (Transaction.operations self) →
       Transaction.calls r1 = reverse (Transaction.operations self) ∧
       Transaction.calls r2 = Transaction.calls r1)
  end.
Proof.
  cbv zeta. rewrite (rollbackAll_undo self w). cbv zeta.
  pose proof (undo_attempted_prefix (reverse (Transaction.operations self)) w)
    as Hprefix.
  pose proof (undo_head (reverse (Transaction.operations self)) w) as Hhead.
  assert (Hnever : Transaction.never_nullish (Transaction.operations self) →
            ∀ w', Transaction.attempted
                    (Transaction.undo (reverse (Transaction.operations self))
                       [] [] w')
                  = reverse (Transaction.operations self)).
  { intros Hn w'. rewrite undo_replay by (apply Forall_reverse, Hn).
    reflexivity. }
  assert (Hdone : Transaction.ended
                    (Transaction.undo (reverse (Transaction.operations self))
                       [] [] w) = Transaction.Completed →
                  Transaction.attempted
                    (Transaction.undo (reverse (Transaction.operations self))
                       [] [] w)
                  = reverse (Transaction.operations self)).
  { generalize (reverse (Transaction.operations self)). clear.
    intros back. revert w. induction back as [|op back IH]; intros w;
      [reflexivity|].
    cbn [Transaction.undo].
    destruct (Transaction.rollback op w) as [[|error] w']; cbv zeta.
    - rewrite undo_accumulates. cbv zeta.
      cbn [Transaction.ended Transaction.attempted app].
      intros Hend. rewrite (IH w' Hend). reflexivity.
    - destruct (Transaction.read_message error).
      + rewrite undo_accumulates. cbv zeta.
        cbn [Transaction.ended Transaction.attempted app].
        intros Hend. rewrite (IH w' Hend). reflexivity.
      + discriminate. }
  destruct (Transaction.undo (reverse (Transaction.operations self)) [] [] w)
    as [ended errors attempted w1] eqn:Hundo.
  cbn [Transaction.ended Transaction.errors Transaction.attempted
       Transaction.world_after] in *.
  destruct ended as [|error].
  - destruct (0 <? length errors)%nat;
      cbn [Transaction.calls Transaction.outcome_of Transaction.log_after
           Transaction.state_after].
    + split; [exact Hprefix|]. split; [reflexivity|]. split; [reflexivity|].
      split.
      * rewrite rollbackAll_undo. cbv zeta.
        pose proof (undo_head (reverse (Transaction.operations self)) w1) as Hh2.
        destruct (Transaction.undo (reverse (Transaction.operations self))
                    [] [] w1) as [ended2 errors2 attempted2 w2].
        cbn [Transaction.ended Transaction.errors Transaction.attempted
             Transaction.world_after] in *.
        destruct ended2; [destruct (0 <? length errors2)%nat|];
          cbn [Transaction.calls]; congruence.
      * intros Hn. split; [apply Hdone; reflexivity|].
        rewrite rollbackAll_undo. cbv zeta.
        pose proof (Hnever Hn w1) as Hall.
        destruct (Transaction.undo (reverse (Transaction.operations self))
                    [] [] w1) as [ended2 errors2 attempted2 w2].
        cbn [Transaction.ended Transaction.errors Transaction.attempted
             Transaction.world_after] in *.
        rewrite (Hdone eq_refl).
        destruct ended2; [destruct (0 <? length errors2)%nat|];
          cbn [Transaction.calls]; exact Hall.
    + split; [exact Hprefix|]. split; [apply Hdone; reflexivity|].
      split; [reflexivity|]. split; [reflexivity|]. split; reflexivity.
  - cbn [Transaction.calls Transaction.outcome_of Transaction.log_after
         Transaction.state_after].
    split; [exact Hprefix|]. split; [reflexivity|]. split; [reflexivity|].
    split.
    + rewrite rollbackAll_undo. cbv zeta.
      pose proof (undo_head (reverse (Transaction.operations self)) w1) as Hh2.
      destruct (Transaction.undo (reverse (Transaction.operations self))
                  [] [] w1) as [ended2 errors2 attempted2 w2].
      cbn [Transaction.ended Transaction.errors Transaction.attempted
           Transaction.world_after] in *.
      destruct ended2; [destruct (0 <? length errors2)%nat|];
        cbn [Transaction.calls]; congruence.
    + intros Hn. exfalso.
      rewrite undo_replay in Hundo by (apply Forall_reverse, Hn).
      discriminate Hundo.
Qed.

(** X11. Last recorded, first undone: after [record(type, details,
    rollback)] the log is one longer and not empty, and [rollbackAll()]
    calls the new rollback first.  When that rejects with [undefined] or
    [null], [rollbackAll()] throws the TypeError of the [catch] block at
    once: no earlier operation is rolled back and the log is kept.
    Otherwise it goes on, from the state the new rollback left, with
    exactly what [rollbackAll()] of the log before the record does there,
    and returns just when the new rollback resolved and that run
    returns. *)
Theorem rollbackAll_after_record {W} (self : Transaction.TransactionLog W)
    (type details : string) (rollback : W → Transaction.settled * W)
    (now : Z) (w : W) :
  let op := Transaction.mkOperation type now details rollback in
  let self' := Transaction.record self type details rollback now in
  let r := Transaction.rollbackAll self' w in
  let rest := Transaction.rollbackAll self (rollback w).2 in
  let goes_on :=
    Transaction.calls r = op :: Transaction.calls rest ∧
    Transaction.state_after r = Transaction.state_after rest ∧
    (Transaction.outcome_of r = Ok tt ↔
     (rollback w).1 = Transaction.Resolved ∧
     Transaction.outcome_of rest = Ok tt) in
  Transaction.count self' = S (Transaction.count self) ∧
  Transaction.hasOperations self' = true ∧
  match (rollback w).1 with
  | Transaction.Resolved => goes_on
  | Transaction.Rejected error =>
      match Transaction.read_message error with
      | Ok _ => goes_on
      | Throw type_error =>
          Transaction.calls r = [op] ∧
          Transaction.outcome_of r = Throw type_error ∧
          Transaction.state_after r = (rollback w).2 ∧
          Transaction.log_after r = self'
      end
  end.
Proof.
  cbv zeta. rewrite !rollbackAll_undo. cbv zeta.
  unfold Transaction.record, Transaction.count, Transaction.hasOperations.
  cbn [Transaction.operations]. rewrite length_app, reverse_snoc.
  cbn [Transaction.undo Transaction.rollback length].
  split; [lia|]. split; [apply Nat.ltb_lt; lia|].
  destruct (rollback w) as [[|error] w1]; cbn [fst snd app].
  - rewrite undo_accumulates. cbv zeta.
    destruct (Transaction.undo (reverse (Transaction.operations self)) [] [] w1)
      as [ended errors attempted w2].
    cbn [Transaction.ended Transaction.errors Transaction.attempted
         Transaction.world_after app].
    destruct ended as [|escaped]; [destruct (0 <? length errors)%nat|];
      cbn [Transaction.calls Transaction.state_after Transaction.outcome_of];
      (split; [reflexivity|]); (split; [reflexivity|]); split;
      first [ intros [_ Hno]; discriminate Hno
            | intros Hno; discriminate Hno
            | intros _; split; reflexivity
            | intros _; reflexivity ].
  - destruct (Transaction.read_message error) as [text|type_error].
    + rewrite undo_accumulates. cbv zeta.
      destruct (Transaction.undo (reverse (Transaction.operations self)) [] [] w1)
        as [ended errors attempted w2].
      cbn [Transaction.ended Transaction.errors Transaction.attempted
           Transaction.world_after app].
      cbn [length].
      destruct ended as [|escaped];
        [change (0 <? S (length errors))%nat with true; cbv iota;
         destruct (0 <? length errors)%nat|];
        cbn [Transaction.calls Transaction.state_after Transaction.outcome_of];
        (split; [reflexivity|]); (split; [reflexivity|]); split;
        first [ intros [Hno _]; discriminate Hno
              | intros Hno; discriminate Hno ].
    + cbn [Transaction.ended Transaction.errors Transaction.attempted
           Transaction.world_after
           Transaction.calls Transaction.state_after Transaction.outcome_of
           Transaction.log_after].
      repeat split.
Qed.

Lemma undo_noop {W} (back : list (Transaction.TransactionOperation W)) :
  Forall (λ op, Transaction.rollback op = noopRollback) back →
  ∀ errors attempted (w : W),
    Transaction.undo back errors attempted w
    = Transaction.mkPass Transaction.Completed errors (attempted ++ back) w.
Proof.
  induction 1 as [|op back Hop _ IH]; intros errors attempted w.
  - simpl. rewrite app_nil_r. reflexivity.
  - cbn [Transaction.undo]. rewrite Hop. unfold noopRollback at 1. cbv zeta.
    rewrite IH, <- app_assoc. reflexivity.
Qed.

(** X12. A log in which every rollback is [noopRollback]: [rollbackAll()]
    returns, changes nothing outside the log and leaves the log empty,
    however many operations were recorded. *)
Theorem rollbackAll_of_noops {W} (self : Transaction.TransactionLog W) (w : W) :
  Forall (λ op, Transaction.rollback op = noopRollback)
    (Transaction.operations self) →
  let r := Transaction.rollbackAll self w in
  Transaction.outcome_of r = Ok tt ∧
  Transaction.state_after r = w ∧
  Transaction.count (Transaction.log_after r) = 0%nat ∧
  length (Transaction.calls r) = Transaction.count self.
Proof.
  intros Hnoop. cbv zeta. rewrite rollbackAll_undo. cbv zeta.
  rewrite undo_noop by (apply Forall_reverse, Hnoop).
  cbn [Transaction.ended Transaction.errors Transaction.attempted
       Transaction.world_after length app].
  change (0 <? 0)%nat with false. cbv iota.
  cbn [Transaction.calls Transaction.state_after Transaction.outcome_of
       Transaction.log_after].
  repeat split. apply length_reverse.
Qed.

Lemma rollbackAll_of_noops_witness :
  Transaction.state_after
    (Transaction.rollbackAll
       (Transaction.record
          (Transaction.record Transaction.new_TransactionLog
             "publish" "npm publish" noopRollback 1)
          "tag" "git push --tags" noopRollback 2)
       [7%nat])
  = [7%nat].
Proof.
  apply (rollbackAll_of_noops
           (Transaction.record
              (Transaction.record Transaction.new_TransactionLog
                 "publish" "npm publish" noopRollback 1)
              "tag" "git push --tags" noopRollback 2) [7%nat]).
  repeat constructor.
Defined.

Section FileRestore.

Context {W : Type} `{Storage W}.
Variable read : W → string → option string.
Hypothesis write_ok : ∀ p c w, (storage_writeFile p c w).1 = Ok tt.
Hypothesis read_written : ∀ p c w, read (storage_writeFile p c w).2 p = Some c.
Hypothesis read_other : ∀ p c w q,
  q ≠ p → read (storage_writeFile p c w).2 q = read w q.

Lemma earliest_snoc (entries : list (string * string)) (q c p : string) :
  earliest (entries ++ [(q, c)]) p
  = match earliest entries p with
    | Some c' => Some c'
    | None => if bool_decide (q = p) then Some c else None
    end.
Proof.
  induction entries as [|[q' c'] entries IH]; simpl; [reflexivity|].
  destruct (bool_decide (q' = p)); [reflexivity | exact IH].
Qed.

Lemma undo_file_restore (now : Z) (entries : list (string * string)) :
  ∀ errors attempted (w : W),
    let r := Transaction.undo (file_restore now <$> reverse entries)
               errors attempted w in
    Transaction.ended r = Transaction.Completed ∧
    Transaction.errors r = errors ∧
    ∀ p, read (Transaction.world_after r) p
         = match earliest entries p with
           | Some c => Some c
           | None => read w p
           end.
Proof.
  induction entries as [|[q c] entries IH] using rev_ind;
    intros errors attempted w; cbv zeta.
  - simpl. repeat split.
  - rewrite reverse_snoc. cbn [fmap list_fmap Transaction.undo file_restore
      Transaction.rollback fst snd]. unfold createFileRestoreRollback.
    pose proof (write_ok q c w) as Hok.
    pose proof (read_written q c w) as Hread.
    pose proof (read_other q c w) as Hother.
    destruct (storage_writeFile q c w) as [o w1]. cbn [fst snd] in *. subst o.
    cbn [Transaction.settle]. cbv zeta.
    change (list_fmap _ _ (file_restore now))
      with (fmap (M:=list) (file_restore now)).
    destruct (IH errors
                (attempted ++
                 [Transaction.mkOperation "file" now q
                    (λ w0, let '(r, w') := storage_writeFile q c w0 in
                           (Transaction.settle r, w'))]) w1)
      as (Hend & Herr & Hfiles).
    split; [exact Hend|]. split; [exact Herr|].
    intros p. rewrite Hfiles, earliest_snoc.
    destruct (earliest entries p); [reflexivity|].
    case_bool_decide as Hq.
    + subst p. exact Hread.
    + apply Hother. congruence.
Qed.

(** X13. A log of file restores, over a storage whose writes succeed and
    read back: [rollbackAll()] returns with the log empty, and every file
    holds the content recorded FIRST for it (later records of the same
    file are undone first and then overwritten), while files never
    recorded keep what they had. *)
Theorem rollbackAll_restores_the_earliest_content (now : Z)
    (entries : list (string * string)) (w : W) :
  let self := Transaction.mkLog (file_restore now <$> entries) in
  let r := Transaction.rollbackAll self w in
  Transaction.outcome_of r = Ok tt ∧
  Transaction.hasOperations (Transaction.log_after r) = false ∧
  ∀ p, read (Transaction.state_after r) p
       = match earliest entries p with
         | Some c => Some c
         | None => read w p
         end.
Proof.
  cbv zeta. rewrite rollbackAll_undo. cbv zeta.
  cbn [Transaction.operations]. rewrite <- fmap_reverse.
  destruct (undo_file_restore now entries [] [] w) as (Hend & Herr & Hfiles).
  cbv zeta in Hend, Herr, Hfiles. rewrite Hend, Herr. cbn [length].
  change (0 <? 0)%nat with false. cbv iota.
  cbn [Transaction.outcome_of Transaction.log_after Transaction.state_after].
  split; [reflexivity|]. split; [reflexivity|]. exact Hfiles.
Qed.

End FileRestore.

(** [package.json] was changed twice: the rollback brings back what it
    held before the first change. *)
Lemma rollbackAll_restores_the_earliest_content_witness :
  Transaction.state_after
    (Transaction.rollbackAll
       (Transaction.mkLog
          (file_restore (H:=plain_Storage) 0
             <$> [("package.json", "1.0.0"); ("package.json", "1.0.1")]))
       {[ "package.json" := "1.0.2" ]}) !! "package.json"
  = Some "1.0.0".
Proof.
  pose proof (rollbackAll_restores_the_earliest_content (H:=plain_Storage)
                (λ w p, w !! p)
                (λ _ _ _, eq_refl)
                (λ p c w, lookup_insert_eq w p c)
                (λ p c w q Hq, lookup_insert_ne w p q c (not_eq_sym Hq))
                0 [("package.json", "1.0.0"); ("package.json", "1.0.1")]
                {[ "package.json" := "1.0.2" ]}) as Hthm.
  cbv zeta in Hthm. destruct Hthm as (_ & _ & Hfiles).
  exact (Hfiles "package.json").
Defined.

(** ** gitMutex: getGitRepositoryRoot *)

Lemma ancestor_S `{Dirs} (k : nat) (path : string) :
  ancestor (S k) path = ancestor k (path_dirname path).
Proof. unfold ancestor. apply Nat.iter_succ_r. Qed.

(** As long as the ancestors are below the root, have no [.git] and have
    a parent, the loop climbs. *)
Lemma walk_up_climbs `{Path} `{Dirs} (host : Host) (root : string) (k : nat) :
  ∀ (fuel : nat) (currentPath : string),
    (k ≤ fuel)%nat →
    (∀ j, (j < k)%nat →
          ancestor j currentPath ≠ root ∧
          GitMutex.has_git host (ancestor j currentPath) = false ∧
          path_dirname (ancestor j currentPath) ≠ ancestor j currentPath) →
    GitMutex.walk_up host fuel root currentPath
    = GitMutex.walk_up host (fuel - k) root (ancestor k currentPath).
Proof.
  induction k as [|k IH]; intros fuel currentPath Hfuel Hbelow.
  - rewrite Nat.sub_0_r. reflexivity.
  - destruct fuel as [|fuel]; [lia|].
    destruct (Hbelow 0%nat) as (Hroot & Hgit & Hparent); [lia|].
    unfold ancestor in Hroot, Hgit, Hparent. simpl in Hroot, Hgit, Hparent.
    cbn [GitMutex.walk_up].
    rewrite bool_decide_eq_false_2 by exact Hroot. rewrite Hgit.
    rewrite bool_decide_eq_false_2 by exact Hparent.
    rewrite ancestor_S. change (S fuel - S k)%nat with (fuel - k)%nat.
    apply IH; [lia|].
    intros j Hj. rewrite <- ancestor_S. apply Hbelow. lia.
Qed.

(** X14. When the git command fails, [getGitRepositoryRoot] climbs from
    the start directory (the parent, for a regular file) and returns the
    nearest ancestor that has a [.git] directory or file; it returns null
    when it arrives at the root of the path, whose own [.git] is never
    looked at, or at a path that is its own parent.  The loop needs one
    turn per ancestor visited. *)
Theorem getGitRepositoryRoot_finds_the_nearest_ancestor `{Path} `{Dirs}
    (host : Host) (fuel k : nat) (startPath : string) (error : Error) :
  let cwd := GitMutex.start_directory host startPath in
  let root := path_parse_root cwd in
  let p := ancestor k cwd in
  git_show_toplevel host cwd = Throw error →
  (k < fuel)%nat →
  (∀ j, (j < k)%nat →
        ancestor j cwd ≠ root ∧
        GitMutex.has_git host (ancestor j cwd) = false ∧
        path_dirname (ancestor j cwd) ≠ ancestor j cwd) →
  let found := GitMutex.getGitRepositoryRoot host fuel startPath in
  (p = root → found = Some None) ∧
  (p ≠ root → GitMutex.has_git host p = true → found = Some (Some p)) ∧
  (p ≠ root → GitMutex.has_git host p = false → path_dirname p = p →
   found = Some None).
Proof.
  intros cwd root p Hgit Hfuel Hbelow found. subst found.
  unfold GitMutex.getGitRepositoryRoot. fold cwd. rewrite Hgit. fold root.
  rewrite (walk_up_climbs host root k fuel cwd) by (lia || exact Hbelow).
  fold p. destruct (fuel - k)%nat as [|rest] eqn:Hrest; [lia|].
  cbn [GitMutex.walk_up]. split; [|split].
  - intros Hp. rewrite bool_decide_eq_true_2 by exact Hp. reflexivity.
  - intros Hp Hfound. rewrite bool_decide_eq_false_2 by exact Hp.
    rewrite Hfound. reflexivity.
  - intros Hp Hnone Htop. rewrite bool_decide_eq_false_2 by exact Hp.
    rewrite Hnone. rewrite bool_decide_eq_true_2 by exact Htop. reflexivity.
Qed.

(** From [package.json] of a package two levels below the repository. *)
Lemma getGitRepositoryRoot_finds_the_nearest_ancestor_witness :
  GitMutex.getGitRepositoryRoot (H:=slash_Path) (H0:=slash_Dirs)
    (host_without_git monorepo_world) 5 "/repo/packages/a/package.json"
  = Some (Some "/repo").
Proof.
  pose proof (getGitRepositoryRoot_finds_the_nearest_ancestor
                (H:=slash_Path) (H0:=slash_Dirs)
                (host_without_git monorepo_world) 5 2
                "/repo/packages/a/package.json"
                (new_Error "Command failed: git rev-parse")) as Hthm.
  cbv zeta in Hthm. destruct Hthm as (_ & Hfound & _).
  - reflexivity.
  - lia.
  - intros j Hj. destruct j as [|[|j]]; [| |lia].
    + split; [vm_compute; discriminate|]. split; [vm_compute; reflexivity|].
      vm_compute; discriminate.
    + split; [vm_compute; discriminate|]. split; [vm_compute; reflexivity|].
      vm_compute; discriminate.
  - apply Hfound; [vm_compute; discriminate | vm_compute; reflexivity].
Defined.

Lemma walk_up_sound `{Path} `{Dirs} (host : Host) (root : string) (fuel : nat) :
  ∀ (currentPath r : string),
    GitMutex.walk_up host fuel root currentPath = Some (Some r) →
    ∃ k, (k < fuel)%nat ∧ r = ancestor k currentPath ∧
         GitMutex.has_git host r = true ∧
         (∀ j, (j < k)%nat →
               GitMutex.has_git host (ancestor j currentPath) = false) ∧
         (∀ j, (j ≤ k)%nat → ancestor j currentPath ≠ root).
Proof.
  induction fuel as [|fuel IH]; intros currentPath r Hr; [discriminate|].
  cbn [GitMutex.walk_up] in Hr.
  case_bool_decide as Hroot; [discriminate|].
  destruct (GitMutex.has_git host currentPath) eqn:Hgit.
  - injection Hr as <-. exists 0%nat. split; [lia|]. split; [reflexivity|].
    split; [exact Hgit|]. split; [intros j Hj; lia|].
    intros j Hj. replace j with 0%nat by lia. exact Hroot.
  - case_bool_decide as Hparent; [discriminate|].
    destruct (IH _ _ Hr) as (k & Hk & Hrk & Hfound & Hnone & Hbelow).
    exists (S k). split; [lia|]. split; [rewrite ancestor_S; exact Hrk|].
    split; [exact Hfound|]. split.
    + intros [|j] Hj; [exact Hgit|]. rewrite ancestor_S. apply Hnone. lia.
    + intros [|j] Hj; [exact Hroot|]. rewrite ancestor_S. apply Hbelow. lia.
Qed.

(** X15. What [getGitRepositoryRoot] returns is either what git printed,
    trimmed, or (when git failed) an ancestor of the start directory that
    has a [.git] directory or file, with no [.git] in between and with
    the root of the path neither reached nor passed: the fallback never
    answers with the file-system root. *)
Theorem getGitRepositoryRoot_result `{Path} `{Dirs}
    (host : Host) (fuel : nat) (startPath r : string) :
  let cwd := GitMutex.start_directory host startPath in
  GitMutex.getGitRepositoryRoot host fuel startPath = Some (Some r) →
  match git_show_toplevel host cwd with
  | Ok out => r = trim out
  | Throw _ =>
      ∃ k, r = ancestor k cwd ∧
           GitMutex.has_git host r = true ∧
           (∀ j, (j < k)%nat → GitMutex.has_git host (ancestor j cwd) = false) ∧
           (∀ j, (j ≤ k)%nat → ancestor j cwd ≠ path_parse_root cwd)
  end.
Proof.
  intros cwd Hr. unfold GitMutex.getGitRepositoryRoot in Hr. fold cwd in Hr.
  destruct (git_show_toplevel host cwd) as [out|error].
  - injection Hr as <-. reflexivity.
  - destruct (walk_up_sound host _ fuel _ _ Hr)
      as (k & _ & Hrk & Hfound & Hnone & Hbelow).
    exists k. repeat split; assumption.
Qed.

Lemma getGitRepositoryRoot_result_witness :
  ∃ k, "/repo" = ancestor (H:=slash_Dirs) k "/repo/packages/a" ∧
       GitMutex.has_git (H:=slash_Path) (host_without_git monorepo_world) "/repo"
         = true ∧
       (∀ j, (j < k)%nat →
             GitMutex.has_git (H:=slash_Path) (host_without_git monorepo_world)
               (ancestor (H:=slash_Dirs) j "/repo/packages/a") = false) ∧
       (∀ j, (j ≤ k)%nat → ancestor (H:=slash_Dirs) j "/repo/packages/a" ≠ "/").
Proof.
  exact (getGitRepositoryRoot_result (H:=slash_Path) (H0:=slash_Dirs)
           (host_without_git monorepo_world) 5 "/repo/packages/a/package.json"
           "/repo" eq_refl).
Defined.

(** ** gitMutex: RepositoryMutexManager and the global manager *)

(** X17. [areInSameRepository] does not depend on the order of its
    arguments, and when it answers true the two paths are served by one
    lock: [withGitLock] of the mutex manager runs, for both, the locked
    operation of one and the same non-empty repository root. *)
Theorem areInSameRepository_means_one_lock {T} `{Path} `{Dirs} `{JSON}
    (host : Host) (fuel : nat) (proc : Process)
    (self : GitMutex.RepositoryMutexManager) (path1 path2 : string) :
  GitMutex.areInSameRepository host fuel path1 path2
  = GitMutex.areInSameRepository host fuel path2 path1 ∧
  (GitMutex.areInSameRepository host fuel path1 path2 = Some true →
   ∃ root, root ≠ "" ∧
     GitMutex.getGitRepositoryRoot host fuel path1 = Some (Some root) ∧
     GitMutex.getGitRepositoryRoot host fuel path2 = Some (Some root) ∧
     GitMutex.withGitLock (T:=T) host fuel proc self path1
       = Some (GitMutex.locked proc self root) ∧
     GitMutex.withGitLock (T:=T) host fuel proc self path2
       = Some (GitMutex.locked proc self root)).
Proof.
  unfold GitMutex.areInSameRepository, GitMutex.withGitLock.
  destruct (GitMutex.getGitRepositoryRoot host fuel path1) as [repo1|];
    destruct (GitMutex.getGitRepositoryRoot host fuel path2) as [repo2|];
    simpl; (split; [|try discriminate]); try reflexivity.
  - rewrite (orb_comm (GitMutex.falsy repo2)).
    destruct (GitMutex.falsy repo1 || GitMutex.falsy repo2); [reflexivity|].
    f_equal. apply bool_decide_ext. split; congruence.
  - destruct repo1 as [root1|]; [|discriminate].
    destruct repo2 as [root2|];
      [|simpl; rewrite orb_true_r; discriminate].
    simpl. case_bool_decide as Hne1; [discriminate|].
    case_bool_decide as Hne2; [discriminate|]. simpl.
    case_bool_decide as Heq; [|discriminate]. injection Heq as <-.
    intros _. exists root1. repeat split; assumption.
Qed.

(** The package directory and its [package.json]. *)
Lemma areInSameRepository_means_one_lock_witness :
  GitMutex.withGitLock (T:=unit) (H:=slash_Path) (H0:=slash_Dirs) (H1:=stamp_JSON)
    (host_without_git monorepo_world) 5 sample_process
    GitMutex.new_RepositoryMutexManager "/repo/packages/a"
  = GitMutex.withGitLock (T:=unit) (H:=slash_Path) (H0:=slash_Dirs) (H1:=stamp_JSON)
      (host_without_git monorepo_world) 5 sample_process
      GitMutex.new_RepositoryMutexManager "/repo/packages/a/package.json".
Proof.
  destruct (areInSameRepository_means_one_lock (T:=unit) (H:=slash_Path)
              (H0:=slash_Dirs) (H1:=stamp_JSON)
              (host_without_git monorepo_world) 5 sample_process
              GitMutex.new_RepositoryMutexManager
              "/repo/packages/a" "/repo/packages/a/package.json")
    as [_ Hsame].
  destruct Hsame as (root & _ & _ & _ & Hfirst & Hsecond);
    [vm_compute; reflexivity|].
  rewrite Hfirst, Hsecond. reflexivity.
Defined.

Lemma count_none {A} (f : A → bool) (P : A → Prop) (l : list A) :
  (∀ x, P x → f x = false) → Forall P l → count f l = 0%nat.
Proof.
  intros Hf. induction 1 as [|x l Hx _ IH]; [reflexivity|].
  simpl. rewrite (Hf x Hx). exact IH.
Qed.

Lemma lock_no_process_on {T W} `{JSON} (h : handler T W) (w : W) proc self :
  count is_process_on (trace (run h (lock proc self) w)) = 0%nat.
Proof.
  apply (count_none _ (touches_only (lockPath self))).
  - intros [] He; simpl in He; try reflexivity; contradiction.
  - pose proof (lock_loop_scope h proc self maxRetries 0%nat retryDelay w)
      as Hscope.
    cbv zeta in Hscope. destruct Hscope as [Hall _]. exact Hall.
Qed.

Lemma unlock_no_process_on {T W} (h : handler T W) (w : W) self :
  count is_process_on (trace (run h (unlock self) w)) = 0%nat.
Proof.
  destruct (lockAcquired self) eqn:Hheld.
  - rewrite (unlock_held h w self Hheld).
    destruct (h bool (fs_existsSync (lockPath self)) w) as [[] w1];
      [destruct (h (outcome unit) (fs_unlinkSync (lockPath self)) w1)|];
      reflexivity.
  - rewrite (unlock_free h w self Hheld). reflexivity.
Qed.

(** How often [getRepositoryLock] calls [process.on]. *)
Lemma getRepositoryLock_process_on {T W} `{Path} (h : handler T W) (w : W)
    (self : RepositoryFileLockManager) (repoPath : string) :
  let r := run h (getRepositoryLock self repoPath) w in
  count is_process_on (trace r)
  = match (result r).2 with
    | Ok _ =>
        if cleanupRegistered self then 0%nat
        else if bool_decide (is_Some (locks self !! path_resolve repoPath))
             then 0%nat else 4%nat
    | Throw _ => 0%nat
    end.
Proof.
  cbv zeta.
  unfold getRepositoryLock, resolveGitDirectory, resolve_try,
    registerCleanupHandlers, and_then, perform, mbind, prog_bind.
  destruct (locks self !! path_resolve repoPath) as [l0|] eqn:Hcached.
  - simpl. destruct (cleanupRegistered self); reflexivity.
  - destruct (cleanupRegistered self) eqn:Hreg; simpl;
    repeat (match goal with
            | |- context [h ?X ?e ?w] => destruct (h X e w) as [? ?] eqn:?
            | |- context [match ?x with _ => _ end] =>
                lazymatch x with
                | context [run] => fail
                | _ => destruct x eqn:?
                end
            end; simpl); reflexivity.
Qed.

(** [withGitLock] calls [process.on] only while it looks up the lock, and
    invokes the operation only when the lookup succeeded. *)
Lemma withGitLock_process_on {T W} `{Path} `{JSON} (h : handler T W) (w : W)
    (proc : Process) (self : RepositoryFileLockManager) (repoPath : string) :
  let r := run h (withGitLock proc self repoPath) w in
  let g := run h (getRepositoryLock self repoPath) w in
  count is_process_on (trace r) = count is_process_on (trace g) ∧
  (operation_calls (trace r) = 1%nat → ∃ v, (result g).2 = Ok v).
Proof.
  cbv zeta. unfold withGitLock. rewrite run_bind. cbv zeta.
  pose proof (getRepositoryLock_no_operation h w self repoPath) as Hnoop.
  destruct (run h (getRepositoryLock self repoPath) w)
    as [[m [[key l]|error]] w1 tg]; cbn [result final trace snd] in *.
  2:{ rewrite app_nil_r. split; [reflexivity|]. rewrite Hnoop. discriminate. }
  split; [|eauto].
  rewrite count_app. rewrite run_bind, run_perform. cbv zeta.
  cbn [result final trace]. rewrite run_bind. cbv zeta.
  pose proof (lock_no_process_on h (h Z Date_now w1).2 proc l) as Hlock.
  destruct (run h (lock proc l) (h Z Date_now w1).2)
    as [[l' [[]|error]] w2 tl]; cbn [result final trace] in *.
  - rewrite !count_app, Hlock.
    rewrite run_bind, run_perform. cbv zeta. cbn [result final trace].
    rewrite run_bind, run_perform. cbv zeta. cbn [result final trace].
    rewrite run_bind. cbv zeta.
    pose proof (unlock_no_process_on h
                  (h (outcome T) call_operation (h Z Date_now w2).2).2 l') as Hu.
    destruct (run h (unlock l') _) as [[l'' u] w3 tu].
    cbn [result final trace] in *.
    rewrite !count_app, Hu. simpl. lia.
  - rewrite !count_app, Hlock. simpl. lia.
Qed.

Lemma withGitLock_keeps_the_flag {T W} `{Path} `{JSON} (h : handler T W) (w : W)
    (proc : Process) (self : RepositoryFileLockManager) (repoPath : string) :
  cleanupRegistered (result (run h (withGitLock proc self repoPath) w)).1
  = cleanupRegistered (result (run h (getRepositoryLock self repoPath) w)).1.
Proof.
  unfold withGitLock. rewrite run_bind. cbv zeta.
  destruct (run h (getRepositoryLock self repoPath) w)
    as [[m [[key l]|error]] w1 tg]; cbn [result final trace fst]; [|reflexivity].
  rewrite run_bind, run_perform. cbv zeta.
  cbn [result final trace]. rewrite run_bind. cbv zeta.
  destruct (run h (lock proc l) (h Z Date_now w1).2)
    as [[l' [[]|error]] w2 tl]; cbn [result final trace fst]; [|reflexivity].
  rewrite run_bind, run_perform. cbv zeta. cbn [result final trace].
  rewrite run_bind, run_perform. cbv zeta. cbn [result final trace].
  rewrite run_bind. cbv zeta.
  destruct (run h (unlock l') _) as [[l'' u] w3 tu]. reflexivity.
Qed.

Lemma getRepositoryLock_sets_the_flag {T W} `{Path} (h : handler T W) (w : W)
    (self : RepositoryFileLockManager) (repoPath : string) :
  let r := run h (getRepositoryLock self repoPath) w in
  cleanupRegistered (result r).1
  = match (result r).2 with
    | Ok _ => cleanupRegistered self
              || negb (bool_decide (is_Some (locks self !! path_resolve repoPath)))
    | Throw _ => cleanupRegistered self
    end.
Proof.
  cbv zeta.
  unfold getRepositoryLock, resolveGitDirectory, resolve_try,
    registerCleanupHandlers, and_then, perform, mbind, prog_bind.
  destruct (locks self !! path_resolve repoPath) as [l0|] eqn:Hcached.
  - simpl. rewrite orb_false_r. reflexivity.
  - destruct (cleanupRegistered self) eqn:Hreg; simpl;
    repeat (match goal with
            | |- context [h ?X ?e ?w] => destruct (h X e w) as [? ?] eqn:?
            | |- context [match ?x with _ => _ end] =>
                lazymatch x with
                | context [run] => fail
                | _ => destruct x eqn:?
                end
            end; simpl); first [reflexivity | assumption | symmetry; assumption].
Qed.

(** [runGitWithLock] inside a repository is [withGitLock] of the lock
    manager of the global mutex manager. *)
Lemma runGitWithLock_inside {T W} `{Path} `{Dirs} `{JSON} (h : handler T W)
    (host : Host) (fuel : nat) (proc : Process)
    (global : option GitMutex.RepositoryMutexManager)
    (packagePath root : string) :
  GitMutex.getGitRepositoryRoot host fuel packagePath = Some (Some root) →
  root ≠ "" →
  ∃ p, GitMutex.runGitWithLock host fuel proc global packagePath = Some p ∧
       ∀ w,
         let r := run h p w in
         let inner := run h (withGitLock proc
                               (GitMutex.lockManager
                                  (GitMutex.getGitMutexManager global).2) root) w in
         trace r = trace inner ∧
         result r = (Some (GitMutex.mkMutex (result inner).1), (result inner).2).
Proof.
  intros Hroot Hne. unfold GitMutex.runGitWithLock.
  destruct (GitMutex.getGitMutexManager global) as [global' manager] eqn:Hget.
  unfold GitMutex.withGitLock. rewrite Hroot. simpl.
  rewrite bool_decide_eq_false_2 by exact Hne.
  eexists. split; [reflexivity|].
  intros w. cbv zeta. unfold GitMutex.locked. rewrite !run_bind. cbv zeta.
  destruct (run h (withGitLock proc (GitMutex.lockManager manager) root) w)
    as [[m r] w1 t]. cbn [result final trace run fst snd]. simpl.
  rewrite !app_nil_r. split; reflexivity.
Qed.

(** X18. The global mutex manager and the process handlers.
    [destroyGitMutexManager()] always returns and leaves no global
    manager.  Inside a repository, a [runGitWithLock] that starts without
    a global manager and gets as far as invoking the operation has called
    [process.on] four times and leaves a global manager whose cleanup
    flag is set; a [runGitWithLock] that finds a global manager with the
    flag set calls [process.on] not at all and keeps the flag.  So the
    handlers are registered once per life of the global manager, and
    again after every [destroyGitMutexManager()]. *)
Theorem runGitWithLock_registers_handlers_once_per_manager {T W}
    `{Path} `{Dirs} `{JSON} (h : handler T W) (host : Host) (fuel : nat)
    (proc : Process) (keys : list string) (packagePath root : string) :
  GitMutex.getGitRepositoryRoot host fuel packagePath = Some (Some root) →
  root ≠ "" →
  (∀ global w,
     result (run h (GitMutex.destroyGitMutexManager keys global) w)
     = (None, Ok tt)) ∧
  (∃ p, GitMutex.runGitWithLock host fuel proc None packagePath = Some p ∧
        ∀ w, let r := run h p w in
             operation_calls (trace r) = 1%nat →
             count is_process_on (trace r) = 4%nat ∧
             ∃ manager, (result r).1 = Some manager ∧
                        cleanupRegistered (GitMutex.lockManager manager) = true) ∧
  (∀ manager,
     cleanupRegistered (GitMutex.lockManager manager) = true →
     ∃ p, GitMutex.runGitWithLock host fuel proc (Some manager) packagePath
          = Some p ∧
          ∀ w, let r := run h p w in
               count is_process_on (trace r) = 0%nat ∧
               ∃ manager', (result r).1 = Some manager' ∧
                           cleanupRegistered (GitMutex.lockManager manager')
                           = true).
Proof.
  intros Hroot Hne. split; [|split].
  - intros [manager|] w; [|reflexivity].
    unfold GitMutex.destroyGitMutexManager, GitMutex.destroy, destroy.
    rewrite !run_bind. cbv zeta.
    destruct (destroy_loop_any h keys (GitMutex.lockManager manager) w)
      as (Hres & _ & _).
    destruct (result (run h (destroy_loop keys (GitMutex.lockManager manager)) w))
      as [m o]. simpl in Hres. subst o. reflexivity.
  - destruct (runGitWithLock_inside h host fuel proc None packagePath root
                Hroot Hne) as (p & Hp & Hrun).
    exists p. split; [exact Hp|]. intros w. cbv zeta.
    destruct (Hrun w) as [Htrace Hresult]. cbv zeta in Htrace, Hresult.
    rewrite Htrace, Hresult. cbn [GitMutex.getGitMutexManager snd fst
      GitMutex.new_RepositoryMutexManager GitMutex.lockManager].
    intros Hcalled.
    destruct (withGitLock_process_on h w proc new_RepositoryFileLockManager root)
      as [Hcount Hfound].
    destruct (Hfound Hcalled) as [v Hv].
    pose proof (getRepositoryLock_process_on h w new_RepositoryFileLockManager root)
      as Hfour.
    pose proof (getRepositoryLock_sets_the_flag h w new_RepositoryFileLockManager root)
      as Hflag.
    cbv zeta in Hfour, Hflag. rewrite Hv in Hfour, Hflag.
    split.
    + rewrite Hcount, Hfour. reflexivity.
    + eexists. split; [reflexivity|]. cbn [GitMutex.lockManager].
      rewrite withGitLock_keeps_the_flag, Hflag. reflexivity.
  - intros manager Hreg.
    destruct (runGitWithLock_inside h host fuel proc (Some manager) packagePath
                root Hroot Hne) as (p & Hp & Hrun).
    exists p. split; [exact Hp|]. intros w. cbv zeta.
    destruct (Hrun w) as [Htrace Hresult]. cbv zeta in Htrace, Hresult.
    rewrite Htrace, Hresult. cbn [GitMutex.getGitMutexManager snd fst].
    destruct (withGitLock_process_on h w proc (GitMutex.lockManager manager) root)
      as [Hcount _].
    pose proof (getRepositoryLock_process_on h w (GitMutex.lockManager manager) root)
      as Hnone.
    pose proof (getRepositoryLock_sets_the_flag h w (GitMutex.lockManager manager)
                  root) as Hflag.
    cbv zeta in Hnone, Hflag. rewrite Hreg in Hnone, Hflag.
    split.
    + rewrite Hcount, Hnone.
      destruct ((result (run h (getRepositoryLock (GitMutex.lockManager manager)
                                  root) w)).2); reflexivity.
    + eexists. split; [reflexivity|]. cbn [GitMutex.lockManager].
      rewrite withGitLock_keeps_the_flag, Hflag.
      destruct ((result (run h (getRepositoryLock (GitMutex.lockManager manager)
                                  root) w)).2); reflexivity.
Qed.

(** The first [runGitWithLock] of a process, for a package of the
    repository [/repo]: four handlers. *)
Lemma runGitWithLock_registers_handlers_once_per_manager_witness :
  ∃ p, GitMutex.runGitWithLock (H:=slash_Path) (H0:=slash_Dirs) (H1:=stamp_JSON)
         (host_without_git monorepo_world) 5 sample_process None
         "/repo/packages/a" = Some p ∧
       count is_process_on
         (trace (run (posix (idle tt)) p monorepo_world)) = 4%nat.
Proof.
  destruct (runGitWithLock_registers_handlers_once_per_manager
              (H:=slash_Path) (H0:=slash_Dirs) (H1:=stamp_JSON)
              (posix (idle tt)) (host_without_git monorepo_world) 5
              sample_process ["/repo"] "/repo/packages/a" "/repo")
    as (_ & (p & Hp & Hrun) & _).
  - vm_compute. reflexivity.
  - discriminate.
  - exists p. split; [exact Hp|].
    apply (Hrun monorepo_world).
    injection Hp as <-. vm_compute. reflexivity.
Defined.

(** ** FileLock.isLocked *)

(** X20. On an instance that does not hold the lock, [isLocked()] after
    [lock()] is true exactly when [lock()] returned, whatever the file
    system answered; after [unlock()] it is false in every case.  It
    reports the flag of the instance and never looks at the lock file. *)
Theorem isLocked_after_lock_and_unlock {T W} `{JSON}
    (h : handler T W) (w : W) (proc : Process) (self : FileLock) :
  lockAcquired self = false →
  let r := run h (lock proc self) w in
  (isLocked (result r).1 = true ↔ (result r).2 = Ok tt) ∧
  ∀ w', isLocked (result (run h (unlock (result r).1) w')).1 = false.
Proof.
  intros Hfree. cbv zeta. split.
  - unfold lock.
    destruct (lock_loop_outcome h proc self maxRetries 0%nat retryDelay w)
      as [_ [Hres|[error Hres]]]; rewrite Hres; cbn [fst snd].
    + split; reflexivity.
    + unfold isLocked. rewrite Hfree. split; discriminate.
  - intros w'. generalize (result (run h (lock proc self) w)).1. intros l.
    destruct (lockAcquired l) eqn:Hheld.
    + rewrite (unlock_held h w' l Hheld).
      destruct (h bool (fs_existsSync (lockPath l)) w') as [[] w1];
        [destruct (h (outcome unit) (fs_unlinkSync (lockPath l)) w1)|];
        reflexivity.
    + rewrite (unlock_free h w' l Hheld). exact Hheld.
Qed.

(** On a read-only file system [lock()] throws: not locked. *)
Lemma isLocked_after_lock_and_unlock_witness :
  isLocked (result (run (read_only (idle tt))
                      (lock (H:=stamp_JSON) sample_process sample_lock)
                      repo_world)).1 = false.
Proof.
  pose proof (isLocked_after_lock_and_unlock (H:=stamp_JSON)
                (read_only (idle tt)) repo_world sample_process sample_lock
                eq_refl) as Hthm.
  cbv zeta in Hthm. destruct Hthm as [Hiff _].
  destruct (isLocked _) eqn:Hlocked; [|reflexivity].
  destruct Hiff as [Hok _]. specialize (Hok eq_refl).
  vm_compute in Hok. discriminate Hok.
Defined.
